(** * JobStalker: cache and resource coordination layer

    A shallow embedding of [job_stalker/cache.py], [job_stalker/database.py]
    and [job_stalker/state.py], and the properties of the TTL-LRU cache, the
    keyed response cache, the connection pool and the background-task
    registry.

    Conventions.
    - A Python [str] is a [string]; one character stands for one code point.
    - A Python [int] is a [Z].
    - A reading of [time.time()] and a TTL are rationals, in seconds.  Every
      operation that reads the clock takes the reading as an argument [now].
    - A [dict] or [OrderedDict] is an association list in iteration order,
      with pairwise distinct keys.
    - A method of the cache or of the state object holds the object's lock
      from its first statement to its last and awaits nothing else, so its
      body is one state transition.  The pool's [initialize] awaits other
      coroutines while it holds the lock and is modelled step by step. *)

From Stdlib Require Import ZArith QArith Bool String Ascii Lia Lqa.
From Stdlib Require Import Floats Uint63 DecimalString.
From Stdlib Require Import List Permutation.
From Stdlib Require OrderedTypeEx.
Import ListNotations.

Local Open Scope string_scope.
Local Open Scope list_scope.
Local Open Scope Z_scope.

Create HintDb odict discriminated.

(** ** Exceptions and results *)

Inductive exn : Type :=
| StopIteration   (* [next] on an exhausted iterator *)
| TimeoutError.   (* [asyncio.wait_for] ran out of time *)

(** The result of a call on an object whose state is [S]: the state after
    the call comes with either outcome, since a raise does not undo earlier
    mutations. *)
Inductive res (S A : Type) : Type :=
| Returns (s : S) (a : A)
| Raises (s : S) (e : exn).
Arguments Returns {S A} s a.
Arguments Raises {S A} s e.

(** ** Strings *)

(** [s[:n]] for [n >= 0]. *)
Fixpoint str_take (n : nat) (s : string) : string :=
  match n, s with
  | S n', String c s' => String c (str_take n' s')
  | _, _ => EmptyString
  end.

(** [c * n] *)
Fixpoint str_repeat (c : ascii) (n : nat) : string :=
  match n with
  | O => EmptyString
  | S n' => String c (str_repeat c n')
  end.

(** [l[:stop]] of Python, for any integer [stop]: a negative [stop] counts
    from the end, and both ends are clamped. *)
Definition py_slice_to {A : Type} (stop : Z) (l : list A) : list A :=
  let len := Z.of_nat (length l) in
  let stop' := if stop <? 0 then Z.max 0 (stop + len) else Z.min stop len in
  firstn (Z.to_nat stop') l.

(** [x in ks] on a list of strings. *)
Definition mem (ks : list string) (x : string) : bool :=
  existsb (String.eqb x) ks.

(** ** Insertion-ordered dictionaries *)

Module OrderedDict.
Section WithValue.
Variable V : Type.

Definition t : Type := list (string * V).

Definition keys (d : t) : list string := map fst d.

(** [d.get(key)] *)
Fixpoint get (key : string) (d : t) : option V :=
  match d with
  | [] => None
  | (k, v) :: rest => if String.eqb key k then Some v else get key rest
  end.

(** [key in d] *)
Definition contains (key : string) (d : t) : bool :=
  match get key d with Some _ => true | None => false end.

(** Assignment to a key that is present: the value changes, the position
    does not. *)
Fixpoint replace (key : string) (v : V) (d : t) : t :=
  match d with
  | [] => []
  | (k, v0) :: rest =>
      if String.eqb key k then (k, v) :: rest
      else (k, v0) :: replace key v rest
  end.

(** [d[key] = v]: a new key goes to the end, a present key keeps its
    place. *)
Definition setitem (key : string) (v : V) (d : t) : t :=
  if contains key d then replace key v d else d ++ [(key, v)].

(** [del d[key]] for a key that is present. *)
Fixpoint delitem (key : string) (d : t) : t :=
  match d with
  | [] => []
  | (k, v) :: rest =>
      if String.eqb key k then rest else (k, v) :: delitem key rest
  end.

(** [d.move_to_end(key)] for a key that is present. *)
Definition move_to_end (key : string) (d : t) : t :=
  match get key d with
  | Some v => delitem key d ++ [(key, v)]
  | None => d
  end.

Definition wf (d : t) : Prop := NoDup (keys d).

End WithValue.

Arguments keys {V} d.
Arguments get {V} key d.
Arguments contains {V} key d.
Arguments replace {V} key v d.
Arguments setitem {V} key v d.
Arguments delitem {V} key d.
Arguments move_to_end {V} key d.
Arguments wf {V} d.

End OrderedDict.

(** ** Python values and number formatting *)

(** The values found in the dictionaries that the [stats] properties
    return. *)
Inductive pyval : Type :=
| PyInt (z : Z)
| PyFloat (x : float)
| PyStr (s : string).

(** [float(z)], exact for [0 <= z < 2^53]. *)
Definition int_to_float (z : Z) : float := PrimFloat.of_uint63 (Uint63.of_Z z).

(** [a / b] on two ints: the quotient rounded once to binary64, which for
    [0 <= a, b < 2^53] is the IEEE quotient of the two converted operands. *)
Definition int_truediv (a b : Z) : float :=
  PrimFloat.div (int_to_float a) (int_to_float b).

(** [n / d] rounded to the nearest integer, ties to even ([d > 0]). *)
Definition round_half_even (n d : Z) : Z :=
  let q := n / d in
  let r := n mod d in
  if 2 * r <? d then q
  else if d <? 2 * r then q + 1
  else if Z.even q then q else q + 1.

(** [str(z)] *)
Definition str_of_int (z : Z) : string := NilZero.string_of_int (Z.to_int z).

(** [f"{x:.1f}"] on a float: the exact binary value rounded to one decimal
    place, ties to even. *)
Definition format_1f (x : float) : string :=
  match Prim2SF x with
  | S754_zero s => if s then "-0.0" else "0.0"
  | S754_infinity s => if s then "-inf" else "inf"
  | S754_nan => "nan"
  | S754_finite s m e =>
      let n := Z.pos m * 10 in
      let tenths :=
        if 0 <=? e then n * 2 ^ e else round_half_even n (2 ^ (- e)) in
      ((if s then "-" else "") ++ str_of_int (tenths / 10) ++ "."
         ++ str_of_int (tenths mod 10))%string
  end.

(** A value that is an int or a float, as the local [hit_rate] of [stats]. *)
Inductive number : Type :=
| Int (z : Z)
| Float (x : float).

(** [f"{v:.1f}"] on a number; an int is converted to a float first. *)
Definition format_spec_1f (v : number) : string :=
  match v with
  | Int z => format_1f (int_to_float z)
  | Float x => format_1f x
  end.

(** ** cache.py *)

Module Cache.
Section WithValue.
Variable T : Type.

(** *** CacheEntry *)

Record CacheEntry : Type := mkEntry {
  value : T;
  created_at : Q;
  ttl : Q;
  hits : Z
}.

(** [time.time() - self.created_at > self.ttl] *)
Definition is_expired (e : CacheEntry) (now : Q) : bool :=
  negb (Qle_bool (now - created_at e) (ttl e)).

Definition touch (e : CacheEntry) : CacheEntry :=
  mkEntry (value e) (created_at e) (ttl e) (hits e + 1).

(** *** LRUCache *)

Record LRUCache : Type := mkCache {
  max_size : Z;
  default_ttl : Q;
  name : string;
  _cache : OrderedDict.t CacheEntry;
  _hits : Z;
  _misses : Z
}.

(** [LRUCache(max_size, default_ttl, name)] *)
Definition new (max_size : Z) (default_ttl : Q) (name : string) : LRUCache :=
  mkCache max_size default_ttl name [] 0 0.

Definition with_cache (c : LRUCache) (d : OrderedDict.t CacheEntry) :=
  mkCache (max_size c) (default_ttl c) (name c) d (_hits c) (_misses c).

Definition count_miss (c : LRUCache) :=
  mkCache (max_size c) (default_ttl c) (name c) (_cache c) (_hits c)
          (_misses c + 1).

Definition count_hit (c : LRUCache) :=
  mkCache (max_size c) (default_ttl c) (name c) (_cache c) (_hits c + 1)
          (_misses c).

(** [len(self._cache)] *)
Definition size (c : LRUCache) : Z := Z.of_nat (length (_cache c)).

(** [LRUCache.get] *)
Definition get (c : LRUCache) (key : string) (now : Q)
  : LRUCache * option T :=
  match OrderedDict.get key (_cache c) with
  | None => (count_miss c, None)
  | Some entry =>
      if is_expired entry now then
        (count_miss (with_cache c (OrderedDict.delitem key (_cache c))), None)
      else
        let d := OrderedDict.move_to_end key (_cache c) in
        (* [entry.touch()] updates the object the dictionary holds *)
        let d := OrderedDict.replace key (touch entry) d in
        (count_hit (with_cache c d), Some (value entry))
  end.

(** The loop of [set]:
    [while len(self._cache) >= self.max_size:
         oldest_key = next(iter(self._cache)); del self._cache[oldest_key]].
    Deleting the first key of a dictionary leaves the items after it
    ([delitem_first] below). *)
Fixpoint evict_oldest (max_size : Z) (d : OrderedDict.t CacheEntry)
  : res (OrderedDict.t CacheEntry) unit :=
  if Z.of_nat (length d) >=? max_size then
    match d with
    | [] => Raises [] StopIteration
    | (oldest_key, _) :: rest => evict_oldest max_size rest
    end
  else Returns d tt.

(** [ttl or self.default_ttl]: [None] and [0] are both falsy. *)
Definition ttl_or (ttl : option Q) (default : Q) : Q :=
  match ttl with
  | Some t => if Qeq_bool t 0 then default else t
  | None => default
  end.

(** [LRUCache.set] *)
Definition set (c : LRUCache) (key : string) (v : T) (ttl : option Q)
           (now : Q) : res LRUCache unit :=
  match evict_oldest (max_size c) (_cache c) with
  | Raises d e => Raises (with_cache c d) e
  | Returns d _ =>
      let entry := mkEntry v now (ttl_or ttl (default_ttl c)) 0 in
      Returns (with_cache c (OrderedDict.setitem key entry d)) tt
  end.

(** [LRUCache.delete] *)
Definition delete (c : LRUCache) (key : string) : LRUCache * bool :=
  if OrderedDict.contains key (_cache c)
  then (with_cache c (OrderedDict.delitem key (_cache c)), true)
  else (c, false).

(** [LRUCache.clear] *)
Definition clear (c : LRUCache) : LRUCache * Z :=
  (with_cache c [], size c).

(** The list [expired_keys] of [cleanup_expired]: the keys of the entries
    found expired, in iteration order.  [is_expired] reads the clock at each
    test; [clock i] is the reading for the entry visited at position [i]. *)
Fixpoint expired_keys (clock : nat -> Q) (i : nat)
  (d : OrderedDict.t CacheEntry) : list string :=
  match d with
  | [] => []
  | (k, v) :: rest =>
      if is_expired v (clock i)
      then k :: expired_keys clock (S i) rest
      else expired_keys clock (S i) rest
  end.

(** [LRUCache.cleanup_expired] *)
Definition cleanup_expired (c : LRUCache) (clock : nat -> Q) : LRUCache * Z :=
  let expired := expired_keys clock 0 (_cache c) in
  (with_cache c
     (fold_left (fun d key => OrderedDict.delitem key d) expired (_cache c)),
   Z.of_nat (length expired)).

(** [LRUCache.stats] *)
Definition stats (c : LRUCache) : list (string * pyval) :=
  let total := _hits c + _misses c in
  let hit_rate :=
    if total >? 0
    then Float (PrimFloat.mul (int_truediv (_hits c) total)
                              (int_to_float 100))
    else Int 0 in
  [ ("name", PyStr (name c));
    ("size", PyInt (size c));
    ("max_size", PyInt (max_size c));
    ("hits", PyInt (_hits c));
    ("misses", PyInt (_misses c));
    ("hit_rate", PyStr (format_spec_1f hit_rate ++ "%")) ].

(** The invariant of the data model: a positive capacity, at most
    [max_size] entries, pairwise distinct keys. *)
Definition well_formed (c : LRUCache) : Prop :=
  0 < max_size c /\ size c <= max_size c /\ OrderedDict.wf (_cache c).

(** *** Sequences of operations *)

Inductive op : Type :=
| OpGet (key : string) (now : Q)
| OpSet (key : string) (v : T) (ttl : option Q) (now : Q).

(** What the caller of one operation observes. *)
Inductive event : Type :=
| Hit (v : T)
| Miss
| Stored
| Failed (e : exn).

Definition step (c : LRUCache) (o : op) : LRUCache * event :=
  match o with
  | OpGet key now =>
      match get c key now with
      | (c', Some v) => (c', Hit v)
      | (c', None) => (c', Miss)
      end
  | OpSet key v ttl now =>
      match set c key v ttl now with
      | Returns c' _ => (c', Stored)
      | Raises c' e => (c', Failed e)
      end
  end.

(** The cache after each operation of a sequence, and what each operation
    gave. *)
Fixpoint run (c : LRUCache) (ops : list op) : list (LRUCache * event) :=
  match ops with
  | [] => []
  | o :: ops' => let r := step c o in r :: run (fst r) ops'
  end.

(** The cache at the end of a sequence. *)
Definition final (c : LRUCache) (ops : list op) : LRUCache :=
  last (map fst (run c ops)) c.

Definition op_key (o : op) : string :=
  match o with
  | OpGet key _ => key
  | OpSet key _ _ _ => key
  end.

Definition is_set (o : op) : bool :=
  match o with OpSet _ _ _ _ => true | OpGet _ _ => false end.

Definition is_hit (e : event) : bool :=
  match e with Hit _ => true | _ => false end.

Definition is_miss (e : event) : bool :=
  match e with Miss => true | _ => false end.

(** [1] for [True], [0] for [False]. *)
Definition tally (b : bool) : Z := if b then 1 else 0.

Definition count_events (f : event -> bool) (r : list (LRUCache * event)) : Z :=
  Z.of_nat (length (filter (fun x => f (snd x)) r)).

End WithValue.

Arguments mkEntry {T} value created_at ttl hits.
Arguments value {T} c.
Arguments created_at {T} c.
Arguments ttl {T} c.
Arguments hits {T} c.
Arguments is_expired {T} e now.
Arguments touch {T} e.
Arguments mkCache {T} max_size default_ttl name _cache _hits _misses.
Arguments max_size {T} l.
Arguments default_ttl {T} l.
Arguments name {T} l.
Arguments _cache {T} l.
Arguments _hits {T} l.
Arguments _misses {T} l.
Arguments new {T} max_size default_ttl name.
Arguments with_cache {T} c d.
Arguments count_miss {T} c.
Arguments count_hit {T} c.
Arguments size {T} c.
Arguments get {T} c key now.
Arguments evict_oldest {T} max_size d.
Arguments ttl_or ttl default : rename.
Arguments set {T} c key v ttl now.
Arguments delete {T} c key.
Arguments clear {T} c.
Arguments expired_keys {T} clock i d.
Arguments cleanup_expired {T} c clock.
Arguments stats {T} c.
Arguments well_formed {T} c.
Arguments OpGet {T} key now.
Arguments OpSet {T} key v ttl now.
Arguments Hit {T} v.
Arguments Miss {T}.
Arguments Stored {T}.
Arguments Failed {T} e.
Arguments step {T} c o.
Arguments run {T} c ops.
Arguments final {T} c ops.
Arguments op_key {T} o.
Arguments is_set {T} o.
Arguments is_hit {T} e.
Arguments is_miss {T} e.
Arguments count_events {T} f r.

End Cache.


(** *** [make_cache_key] *)

Section MakeCacheKey.

(** [hashlib.md5(s.encode()).hexdigest()]: any function of the text. *)
Variable md5_hexdigest : string -> string.

(** One step of [sorted(kwargs.items())]: the items are pairs compared by
    their keys, which are pairwise distinct in a dictionary. *)
Fixpoint insert_item (x : string * string) (l : list (string * string))
  : list (string * string) :=
  match l with
  | [] => [x]
  | y :: l' =>
      if String.leb (fst x) (fst y) then x :: l else y :: insert_item x l'
  end.

(** [sorted(kwargs.items())] *)
Definition sorted_items (kwargs : list (string * string))
  : list (string * string) :=
  fold_right insert_item [] kwargs.

(** [make_cache_key] on its positional and keyword arguments; the
    positional arguments and the keyword values are given by their [str()]. *)
Definition make_cache_key (args : list string)
  (kwargs : list (string * string)) : string :=
  let key_parts :=
    args ++ map (fun kv => (fst kv ++ "=" ++ snd kv)%string)
                (sorted_items kwargs) in
  let key_str := String.concat "|" key_parts in
  md5_hexdigest key_str.

End MakeCacheKey.

(** *** AIResponseCache and [cached_ai_call] *)

Module AIResponseCache.
Section WithDigest.

(** [hashlib.md5(s.encode()).hexdigest()]: any function of the text. *)
Variable md5_hexdigest : string -> string.

(** The cached responses ([Dict[str, Any]]). *)
Variable R : Type.

(** What the expensive call acts on; the awaited call of [func] on its
    arguments is a transition of it that yields a response or [None]. *)
Variable W : Type.

Definition TTL_VACANCY_ANALYSIS : Q := 3600.
Definition TTL_RECRUITER_ANALYSIS : Q := 1800.
Definition TTL_RESUME_IMPROVEMENT : Q := 900.
Definition TTL_RESUME_PARSE : Q := 7200.

(** [AIResponseCache(max_size)]: the object has the one field [_cache]. *)
Definition new (max_size : Z) : Cache.LRUCache R :=
  Cache.new max_size TTL_VACANCY_ANALYSIS "ai_cache".

(** [f"{model}:{md5(prompt[:500])}"] *)
Definition _make_key (prompt model : string) : string :=
  (model ++ ":" ++ md5_hexdigest (str_take 500 prompt))%string.

Definition get_vacancy_analysis (c : Cache.LRUCache R)
  (vacancy_text model : string) (now : Q) : Cache.LRUCache R * option R :=
  let key := _make_key vacancy_text model in
  Cache.get c key now.

Definition set_vacancy_analysis (c : Cache.LRUCache R)
  (vacancy_text model : string) (result : R) (now : Q)
  : res (Cache.LRUCache R) unit :=
  let key := _make_key vacancy_text model in
  Cache.set c key result (Some TTL_VACANCY_ANALYSIS) now.

(** [f"{vacancy_text[:500]}|{resume_text[:500]}"] *)
Definition combined (vacancy_text resume_text : string) : string :=
  (str_take 500 vacancy_text ++ "|" ++ str_take 500 resume_text)%string.

Definition get_recruiter_analysis (c : Cache.LRUCache R)
  (vacancy_text resume_text model : string) (now : Q)
  : Cache.LRUCache R * option R :=
  let key := _make_key (combined vacancy_text resume_text) model in
  Cache.get c key now.

Definition set_recruiter_analysis (c : Cache.LRUCache R)
  (vacancy_text resume_text model : string) (result : R) (now : Q)
  : res (Cache.LRUCache R) unit :=
  let key := _make_key (combined vacancy_text resume_text) model in
  Cache.set c key result (Some TTL_RECRUITER_ANALYSIS) now.

(** [get_ai_cache]: the module-level [_ai_cache] is created on first use,
    with the default [max_size = 200]. *)
Definition get_ai_cache (_ai_cache : option (Cache.LRUCache R))
  : Cache.LRUCache R :=
  match _ai_cache with
  | Some c => c
  | None => new 200
  end.

(** [cached_ai_call(cache_key, ttl, func, ...)].  The state is
    the module-level cache and the collaborator's world; the clock is read
    once by the lookup ([now_get]) and once by the store ([now_set]). *)
Definition cached_ai_call (_ai_cache : option (Cache.LRUCache R)) (w : W)
  (cache_key : string) (ttl : Q) (func : W -> W * option R)
  (now_get now_set : Q)
  : res (Cache.LRUCache R * W) (option R) :=
  let cache := get_ai_cache _ai_cache in
  let (cache, cached) := Cache.get cache cache_key now_get in
  match cached with
  | Some v => Returns (cache, w) (Some v)
  | None =>
      let (w, result) := func w in
      match result with
      | Some v =>
          match Cache.set cache cache_key v (Some ttl) now_set with
          | Returns cache _ => Returns (cache, w) (Some v)
          | Raises cache e => Raises (cache, w) e
          end
      | None => Returns (cache, w) None
      end
  end.

End WithDigest.

Arguments new {R} max_size.
Arguments get_vacancy_analysis md5_hexdigest {R} c vacancy_text model now.
Arguments set_vacancy_analysis md5_hexdigest {R} c vacancy_text model result now.
Arguments get_recruiter_analysis md5_hexdigest {R} c vacancy_text resume_text model now.
Arguments set_recruiter_analysis md5_hexdigest {R} c vacancy_text resume_text model result now.
Arguments get_ai_cache {R} _ai_cache.
Arguments cached_ai_call {R W} _ai_cache w cache_key ttl func now_get now_set.

End AIResponseCache.

(** ** database.py: DatabasePool *)

Module Database.

(** A connection, known by its rank among the connections that
    [aiosqlite.connect] has handed out. *)
Definition Connection : Type := nat.

(** What a call made by one task, with no other task running, comes to; [S]
    is the state of the object.  [Blocks]: the task is suspended on an
    [await] that only the task itself could complete, so the call never
    returns.  [OutOfFuel] bounds the depth of nested calls in the model and
    is not an outcome of the program. *)
Inductive outcome (S A : Type) : Type :=
| Done (s : S) (a : A)
| Raise (s : S) (e : exn)
| Blocks (s : S)
| OutOfFuel.
Arguments Done {S A} s a.
Arguments Raise {S A} s e.
Arguments Blocks {S A} s.
Arguments OutOfFuel {S A}.

Record DatabasePool : Type := mkPool {
  pool_size : Z;
  _pool : list Connection;        (* the [asyncio.Queue], front first *)
  _connections : list Connection;
  _locked : bool;                 (* [self._lock] is held *)
  _initialized : bool;
  connected : nat                 (* calls of [aiosqlite.connect] so far *)
}.

(** [DatabasePool(db_path, pool_size, timeout)] *)
Definition new (pool_size : Z) : DatabasePool :=
  mkPool pool_size [] [] false false 0.

Definition with_lock (p : DatabasePool) (b : bool) : DatabasePool :=
  mkPool (pool_size p) (_pool p) (_connections p) b (_initialized p)
         (connected p).

Definition with_initialized (p : DatabasePool) (b : bool) : DatabasePool :=
  mkPool (pool_size p) (_pool p) (_connections p) (_locked p) b (connected p).

Definition with_pool (p : DatabasePool) (q : list Connection) : DatabasePool :=
  mkPool (pool_size p) q (_connections p) (_locked p) (_initialized p)
         (connected p).

(** [aiosqlite.connect(...)] followed by [self._connections.append(conn)].
    The constructor is taken to succeed; the [PRAGMA] statements run on the
    new connection and leave the pool as it is. *)
Definition connect (p : DatabasePool) : DatabasePool * Connection :=
  let conn := connected p in
  (mkPool (pool_size p) (_pool p) (_connections p ++ [conn]) (_locked p)
          (_initialized p) (S (connected p)),
   conn).

(** [Queue(maxsize=pool_size).full()]: a queue with [maxsize <= 0] is
    unbounded. *)
Definition full (p : DatabasePool) : bool :=
  (0 <? pool_size p) && (pool_size p <=? Z.of_nat (length (_pool p))).

(** [await self._pool.put(conn)]: waits while the queue is full. *)
Definition put (p : DatabasePool) (conn : Connection)
  : outcome DatabasePool unit :=
  if full p then Blocks p else Done (with_pool p (_pool p ++ [conn])) tt.

(** [for _ in range(self.pool_size)]: connect, record, enqueue. *)
Fixpoint connect_all (n : nat) (p : DatabasePool) : outcome DatabasePool unit :=
  match n with
  | O => Done p tt
  | S n' =>
      let (p, conn) := connect p in
      match put p conn with
      | Done p _ => connect_all n' p
      | other => other
      end
  end.

(** The [finally] of [acquire]: [await self._pool.put(conn)]. *)
Definition acquire_exit (p : DatabasePool) (conn : Connection)
  : outcome DatabasePool unit :=
  put p conn.

(** [initialize], and [acquire] up to its [yield].  Each calls the other, so
    both take the nesting depth they may use.

    [async with self._lock] suspends the task while the lock is held; the
    task resumes when the holder releases it.  [asyncio.Lock] is not
    reentrant: when the task itself is the holder the wait has no end.

    [asyncio.wait_for(self._pool.get(), timeout)] on an empty queue ends in
    [TimeoutError], no other task being there to put a connection back.  An
    exception that leaves the [async with] block releases the lock. *)
Fixpoint initialize (fuel : nat) (p : DatabasePool)
  : outcome DatabasePool unit :=
  match fuel with
  | O => OutOfFuel
  | S fuel' =>
      if _initialized p then Done p tt
      else if _locked p then Blocks p
      else
        let p := with_lock p true in
        if _initialized p then Done (with_lock p false) tt
        else
          match connect_all (Z.to_nat (pool_size p)) p with
          | Done p _ =>
              (* Create schema: [async with self.acquire() as conn] *)
              match acquire_enter fuel' p with
              | Done p conn =>
                  match acquire_exit p conn with
                  | Done p _ =>
                      Done (with_lock (with_initialized p true) false) tt
                  | Raise p e => Raise (with_lock p false) e
                  | Blocks p => Blocks p
                  | OutOfFuel => OutOfFuel
                  end
              | Raise p e => Raise (with_lock p false) e
              | Blocks p => Blocks p
              | OutOfFuel => OutOfFuel
              end
          | Raise p e => Raise (with_lock p false) e
          | Blocks p => Blocks p
          | OutOfFuel => OutOfFuel
          end
  end
with acquire_enter (fuel : nat) (p : DatabasePool)
  : outcome DatabasePool Connection :=
  match fuel with
  | O => OutOfFuel
  | S fuel' =>
      match (if _initialized p then Done p tt else initialize fuel' p) with
      | Done p _ =>
          match _pool p with
          | conn :: rest => Done (with_pool p rest) conn
          | [] => Raise p TimeoutError
          end
      | Raise p e => Raise p e
      | Blocks p => Blocks p
      | OutOfFuel => OutOfFuel
      end
  end.

(** [n] calls of [initialize], one after the other; a call that does not
    return ends the sequence. *)
Fixpoint initialize_times (fuel n : nat) (p : DatabasePool)
  : outcome DatabasePool unit :=
  match n with
  | O => Done p tt
  | S n' =>
      match initialize fuel p with
      | Done p _ => initialize_times fuel n' p
      | other => other
      end
  end.

End Database.

(** ** state.py: the registry of background improvement tasks *)

Module State.
Section WithTask.

(** The [asyncio.Task] handles and the results that tasks report. *)
Variables Task Result : Type.

(** An entry [{"task": ..., "status": ..., "result": ...}]; the key
    ["result"] is absent until a result is recorded. *)
Record TaskInfo : Type := mkInfo {
  task : Task;
  status : string;
  result : option Result
}.

(** [self._improvement_tasks] *)
Definition registry : Type := OrderedDict.t TaskInfo.

(** [AppState.add_improvement_task] *)
Definition add_improvement_task (tasks : registry) (vacancy_id : string)
  (t : Task) : registry :=
  OrderedDict.setitem vacancy_id (mkInfo t "running" None) tasks.

(** [AppState.update_improvement_task] *)
Definition update_improvement_task (tasks : registry) (vacancy_id : string)
  (new_status : string) (new_result : option Result) : registry :=
  match OrderedDict.get vacancy_id tasks with
  | Some info =>
      let r := match new_result with
               | Some x => Some x
               | None => result info
               end in
      OrderedDict.replace vacancy_id (mkInfo (task info) new_status r) tasks
  | None => tasks
  end.

(** [AppState.get_improvement_task] *)
Definition get_improvement_task (tasks : registry) (vacancy_id : string)
  : option TaskInfo :=
  OrderedDict.get vacancy_id tasks.

(** [info.get("status") in ("completed", "error")] *)
Definition is_completed (info : TaskInfo) : bool :=
  String.eqb (status info) "completed" || String.eqb (status info) "error".

(** The list [completed] of [cleanup_improvement_tasks]. *)
Definition completed_ids (tasks : registry) : list string :=
  map fst (filter (fun item => is_completed (snd item)) tasks).

(** [AppState.cleanup_improvement_tasks] *)
Definition cleanup_improvement_tasks (tasks : registry) (max_completed : Z)
  : registry :=
  let completed := completed_ids tasks in
  if Z.of_nat (length completed) >? max_completed then
    (* Remove oldest completed tasks *)
    let to_remove := py_slice_to (- max_completed) completed in
    fold_left (fun d vid => OrderedDict.delitem vid d) to_remove tasks
  else tasks.

End WithTask.

Arguments mkInfo {Task Result} task status result.
Arguments task {Task Result} t.
Arguments status {Task Result} t.
Arguments result {Task Result} t.
Arguments add_improvement_task {Task Result} tasks vacancy_id t.
Arguments update_improvement_task {Task Result} tasks vacancy_id new_status new_result.
Arguments get_improvement_task {Task Result} tasks vacancy_id.
Arguments is_completed {Task Result} info.
Arguments completed_ids {Task Result} tasks.
Arguments cleanup_improvement_tasks {Task Result} tasks max_completed.

(** *** Monitoring state *)

Section Monitoring.
Variable Task : Type.

(** [self._monitoring_active] and [self._monitoring_task]. *)
Record Monitoring : Type := mkMonitoring {
  _monitoring_active : bool;
  _monitoring_task : option Task
}.

(** The two fields as [AppState.__init__] sets them. *)
Definition monitoring_init : Monitoring := mkMonitoring false None.

(** [AppState.start_monitoring] *)
Definition start_monitoring (m : Monitoring) (t : Task) : Monitoring * bool :=
  if _monitoring_active m then (m, false)
  else (mkMonitoring true (Some t), true).

(** [AppState.stop_monitoring] *)
Definition stop_monitoring (m : Monitoring) : Monitoring * option Task :=
  (mkMonitoring false None, _monitoring_task m).

(** Calls of the two methods, one after the other. *)
Inductive monitoring_op : Type :=
| Start (t : Task)
| Stop.

Definition monitoring_step (m : Monitoring) (o : monitoring_op) : Monitoring :=
  match o with
  | Start t => fst (start_monitoring m t)
  | Stop => fst (stop_monitoring m)
  end.

Definition monitoring_run (m : Monitoring) (ops : list monitoring_op)
  : Monitoring :=
  fold_left monitoring_step ops m.

End Monitoring.

Arguments mkMonitoring {Task} _monitoring_active _monitoring_task.
Arguments _monitoring_active {Task} m.
Arguments _monitoring_task {Task} m.
Arguments monitoring_init {Task}.
Arguments start_monitoring {Task} m t.
Arguments stop_monitoring {Task} m.
Arguments Start {Task} t.
Arguments Stop {Task}.
Arguments monitoring_step {Task} m o.
Arguments monitoring_run {Task} m ops.

(** *** Statistics *)

(** The dataclass [Stats]. *)
Record Stats : Type := mkStats {
  found : Z;
  processed : Z;
  rejected : Z;
  suitable : Z
}.

(** [Stats()] *)
Definition stats_init : Stats := mkStats 0 0 0 0.

(** [Stats.reset] *)
Definition reset (s : Stats) : Stats := mkStats 0 0 0 0.

(** [Stats.to_dict] *)
Definition to_dict (s : Stats) : list (string * Z) :=
  [ ("found", found s); ("processed", processed s);
    ("rejected", rejected s); ("suitable", suitable s) ].

(** [if x is not None: field = x] *)
Definition assign_if_given (x : option Z) (field : Z) : Z :=
  match x with
  | Some v => v
  | None => field
  end.

(** [AppState.update_stats] *)
Definition update_stats (s : Stats)
  (found_ processed_ rejected_ suitable_ : option Z) : Stats :=
  mkStats (assign_if_given found_ (found s))
          (assign_if_given processed_ (processed s))
          (assign_if_given rejected_ (rejected s))
          (assign_if_given suitable_ (suitable s)).

(** [AppState.increment_stats] *)
Definition increment_stats (s : Stats)
  (found_ processed_ rejected_ suitable_ : Z) : Stats :=
  mkStats (found s + found_) (processed s + processed_)
          (rejected s + rejected_) (suitable s + suitable_).

(** [AppState.reset_stats] *)
Definition reset_stats (s : Stats) : Stats := reset s.

(** [AppState.get_stats_dict] *)
Definition get_stats_dict (s : Stats) : list (string * Z) := to_dict s.

(** A list of [increment_stats] calls, each given by its four arguments. *)
Definition increment_all (s : Stats) (deltas : list Stats) : Stats :=
  fold_left (fun s d => increment_stats s (found d) (processed d)
                                        (rejected d) (suitable d))
            deltas s.

(** *** Settings *)

Section Settings.

(** The values of the settings ([Any]). *)
Variable Setting : Type.

(** [self._settings.update(updates)]: each item of [updates] is assigned in
    turn. *)
Definition update_settings (settings updates : OrderedDict.t Setting)
  : OrderedDict.t Setting :=
  fold_left (fun d kv => OrderedDict.setitem (fst kv) (snd kv) d)
            updates settings.

(** [AppState.set_settings]: the new dictionary replaces the old one. *)
Definition set_settings (settings new_settings : OrderedDict.t Setting)
  : OrderedDict.t Setting :=
  new_settings.

(** [AppState.get_setting]: [self._settings.get(key, default)] *)
Definition get_setting (settings : OrderedDict.t Setting) (key : string)
  (default : Setting) : Setting :=
  match OrderedDict.get key settings with
  | Some v => v
  | None => default
  end.

End Settings.

Arguments update_settings {Setting} settings updates.
Arguments set_settings {Setting} settings new_settings.
Arguments get_setting {Setting} settings key default.

(** *** WebSocket clients *)

Section Clients.

(** The client objects, and their equality ([==], which [in] and
    [list.remove] use). *)
Variable Client : Type.
Variable Client_eq_dec : forall x y : Client, {x = y} + {x <> y}.

(** [l.remove(client)] for a client that is in the list: the first
    occurrence goes. *)
Fixpoint list_remove (client : Client) (l : list Client) : list Client :=
  match l with
  | [] => []
  | x :: l' =>
      if Client_eq_dec client x then l' else x :: list_remove client l'
  end.

(** [AppState.add_ws_client] *)
Definition add_ws_client (clients : list Client) (client : Client)
  : list Client :=
  if in_dec Client_eq_dec client clients then clients
  else clients ++ [client].

(** [AppState.remove_ws_client] *)
Definition remove_ws_client (clients : list Client) (client : Client)
  : list Client :=
  if in_dec Client_eq_dec client clients then list_remove client clients
  else clients.

(** [AppState.get_ws_clients]: a copy of the list. *)
Definition get_ws_clients (clients : list Client) : list Client := clients.

(** [AppState.cleanup_ws_clients] *)
Definition cleanup_ws_clients (clients dead_clients : list Client)
  : list Client :=
  fold_left
    (fun l client =>
       if in_dec Client_eq_dec client l then list_remove client l else l)
    dead_clients clients.

(** [AppState.ws_client_count] *)
Definition ws_client_count (clients : list Client) : Z :=
  Z.of_nat (length clients).

(** Calls of the three mutating methods, one after the other. *)
Inductive ws_op : Type :=
| AddClient (client : Client)
| RemoveClient (client : Client)
| CleanupClients (dead_clients : list Client).

Definition ws_step (clients : list Client) (o : ws_op) : list Client :=
  match o with
  | AddClient client => add_ws_client clients client
  | RemoveClient client => remove_ws_client clients client
  | CleanupClients dead_clients => cleanup_ws_clients clients dead_clients
  end.

Definition ws_run (clients : list Client) (ops : list ws_op) : list Client :=
  fold_left ws_step ops clients.

End Clients.

Arguments list_remove {Client} Client_eq_dec client l.
Arguments add_ws_client {Client} Client_eq_dec clients client.
Arguments remove_ws_client {Client} Client_eq_dec clients client.
Arguments get_ws_clients {Client} clients.
Arguments cleanup_ws_clients {Client} Client_eq_dec clients dead_clients.
Arguments ws_client_count {Client} clients.
Arguments AddClient {Client} client.
Arguments RemoveClient {Client} client.
Arguments CleanupClients {Client} dead_clients.
Arguments ws_step {Client} Client_eq_dec clients o.
Arguments ws_run {Client} Client_eq_dec clients ops.

End State.

(** * Facts about the model *)

(** ** Insertion-ordered dictionaries *)

Section OrderedDictFacts.
Import OrderedDict.
Variable V : Type.
Implicit Types (d rest : OrderedDict.t V) (key k : string) (v : V).

Lemma get_None_notin key d : get key d = None <-> ~ In key (keys d).
Proof.
  induction d as [|[k v] rest IH]; simpl.
  - tauto.
  - destruct (String.eqb_spec key k) as [->|Hne].
    + split; [discriminate | intros H; exfalso; apply H; now left].
    + rewrite IH. split; [intros H [E|E]; [congruence | tauto] | tauto].
Qed.

Lemma get_Some_in key d v : get key d = Some v -> In (key, v) d.
Proof.
  induction d as [|[k v0] rest IH]; simpl; [discriminate|].
  destruct (String.eqb_spec key k) as [->|Hne].
  - intros [= ->]. now left.
  - intros H. right. auto.
Qed.

Lemma contains_true_iff key d : contains key d = true <-> In key (keys d).
Proof.
  unfold contains. destruct (get key d) eqn:E.
  - split; [intros _|reflexivity].
    apply get_Some_in in E. apply (in_map fst) in E. exact E.
  - apply get_None_notin in E. split; [discriminate | tauto].
Qed.

Lemma contains_false_iff key d : contains key d = false <-> ~ In key (keys d).
Proof.
  rewrite <- contains_true_iff. destruct (contains key d); split; congruence.
Qed.

Lemma keys_app d1 d2 : keys (d1 ++ d2) = keys d1 ++ keys d2.
Proof. apply map_app. Qed.

Lemma keys_replace key v d : keys (replace key v d) = keys d.
Proof.
  induction d as [|[k v0] rest IH]; simpl; [reflexivity|].
  destruct (String.eqb key k); simpl; congruence.
Qed.

Lemma length_replace key v d : length (replace key v d) = length d.
Proof.
  induction d as [|[k v0] rest IH]; simpl; [reflexivity|].
  destruct (String.eqb key k); simpl; congruence.
Qed.

Lemma replace_notin key v d : ~ In key (keys d) -> replace key v d = d.
Proof.
  induction d as [|[k v0] rest IH]; simpl; [reflexivity|].
  intros H. destruct (String.eqb_spec key k) as [->|Hne]; [tauto|].
  f_equal. apply IH. tauto.
Qed.

Lemma replace_last key v0 v d :
  ~ In key (keys d) -> replace key v (d ++ [(key, v0)]) = d ++ [(key, v)].
Proof.
  induction d as [|[k w] rest IH]; simpl.
  - now rewrite String.eqb_refl.
  - intros H. destruct (String.eqb_spec key k) as [->|Hne]; [tauto|].
    f_equal. apply IH. tauto.
Qed.

Lemma keys_setitem key v d :
  keys (setitem key v d) = if contains key d then keys d else keys d ++ [key].
Proof.
  unfold setitem. destruct (contains key d).
  - apply keys_replace.
  - now rewrite keys_app.
Qed.

Lemma length_setitem key v d :
  length (setitem key v d) =
  if contains key d then length d else S (length d).
Proof.
  unfold setitem. destruct (contains key d).
  - apply length_replace.
  - rewrite length_app. simpl. lia.
Qed.

Lemma get_replace_same key v d :
  In key (keys d) -> get key (replace key v d) = Some v.
Proof.
  induction d as [|[k v0] rest IH]; simpl; [tauto|].
  intros H. destruct (String.eqb_spec key k) as [->|Hne]; simpl.
  - now rewrite String.eqb_refl.
  - destruct (String.eqb_spec key k); [congruence|]. apply IH.
    destruct H; congruence.
Qed.

Lemma get_app_notin key d1 d2 :
  ~ In key (keys d1) -> get key (d1 ++ d2) = get key d2.
Proof.
  induction d1 as [|[k v0] rest IH]; simpl; [reflexivity|].
  intros H. destruct (String.eqb_spec key k) as [->|Hne]; [tauto|].
  apply IH. tauto.
Qed.

Lemma get_setitem_same key v d : get key (setitem key v d) = Some v.
Proof.
  unfold setitem. destruct (contains key d) eqn:E.
  - apply get_replace_same. now apply contains_true_iff.
  - apply contains_false_iff in E. rewrite get_app_notin by assumption.
    simpl. now rewrite String.eqb_refl.
Qed.

Lemma keys_delitem_incl key d k : In k (keys (delitem key d)) -> In k (keys d).
Proof.
  induction d as [|[k0 v0] rest IH]; simpl; [tauto|].
  destruct (String.eqb key k0); simpl; tauto.
Qed.

(** Deleting the first key leaves the items after it. *)
Lemma delitem_first key v d : delitem key ((key, v) :: d) = d.
Proof. simpl. now rewrite String.eqb_refl. Qed.

Lemma delitem_notin key d : ~ In key (keys d) -> delitem key d = d.
Proof.
  induction d as [|[k v0] rest IH]; simpl; [reflexivity|].
  intros H. destruct (String.eqb_spec key k) as [->|Hne]; [tauto|].
  f_equal. apply IH. tauto.
Qed.

Lemma keys_delitem_wf key d : wf d -> ~ In key (keys (delitem key d)).
Proof.
  unfold wf. induction d as [|[k v0] rest IH]; simpl; [tauto|].
  intros Hnd. inversion Hnd as [|? ? Hk Hrest]; subst.
  destruct (String.eqb_spec key k) as [->|Hne]; simpl; [assumption|].
  intros [E|E]; [congruence | now apply IH].
Qed.

Lemma length_delitem key d :
  In key (keys d) -> S (length (delitem key d)) = length d.
Proof.
  induction d as [|[k v0] rest IH]; simpl; [tauto|].
  intros H. destruct (String.eqb_spec key k) as [->|Hne]; simpl; [reflexivity|].
  f_equal. apply IH. destruct H; congruence.
Qed.

Lemma wf_nil : wf ([] : OrderedDict.t V).
Proof. constructor. Qed.

Lemma wf_tail x d : wf (x :: d) -> wf d.
Proof. unfold wf. simpl. intros H. now inversion H. Qed.

Lemma wf_replace key v d : wf d -> wf (replace key v d).
Proof. unfold wf. now rewrite keys_replace. Qed.

Lemma wf_delitem key d : wf d -> wf (delitem key d).
Proof.
  unfold wf. induction d as [|[k v0] rest IH]; simpl; [auto|].
  intros Hnd. inversion Hnd as [|? ? Hk Hrest]; subst.
  destruct (String.eqb key k); simpl; [assumption|].
  constructor; [|auto]. intros Hin. apply Hk. eapply keys_delitem_incl, Hin.
Qed.

Lemma wf_snoc key v d : wf d -> ~ In key (keys d) -> wf (d ++ [(key, v)]).
Proof.
  unfold wf. intros Hnd Hk. rewrite keys_app. simpl.
  apply NoDup_app; [assumption | repeat constructor; simpl; tauto |].
  intros a Ha [<-|[]]. tauto.
Qed.

Lemma wf_setitem key v d : wf d -> wf (setitem key v d).
Proof.
  intros Hwf. unfold setitem. destruct (contains key d) eqn:E.
  - now apply wf_replace.
  - apply wf_snoc; [assumption | now apply contains_false_iff].
Qed.

Lemma wf_move_to_end key d : wf d -> wf (move_to_end key d).
Proof.
  intros Hwf. unfold move_to_end. destruct (get key d); [|assumption].
  apply wf_snoc; [now apply wf_delitem | now apply keys_delitem_wf].
Qed.

Lemma length_move_to_end key d : length (move_to_end key d) = length d.
Proof.
  unfold move_to_end. destruct (get key d) eqn:E; [|reflexivity].
  rewrite length_app. simpl.
  apply get_Some_in, (in_map fst) in E. apply length_delitem in E.
  simpl in E. lia.
Qed.

End OrderedDictFacts.

#[export] Hint Resolve wf_nil wf_replace wf_delitem wf_setitem wf_move_to_end
  : odict.

(** ** The TTL-LRU cache *)

Section CacheFacts.
Variable T : Type.
Implicit Types (c : Cache.LRUCache T) (d : OrderedDict.t (Cache.CacheEntry T)).
Implicit Types (key : string) (v : T) (now : Q) (e : Cache.CacheEntry T).

Lemma wf_skipn (V : Type) n (d : OrderedDict.t V) :
  OrderedDict.wf d -> OrderedDict.wf (skipn n d).
Proof.
  revert d. induction n as [|n IH]; intros [|x d] Hwf; simpl; auto.
  apply IH. eapply wf_tail, Hwf.
Qed.

Lemma keys_skipn (V : Type) n (d : OrderedDict.t V) :
  OrderedDict.keys (skipn n d) = skipn n (OrderedDict.keys d).
Proof. unfold OrderedDict.keys. symmetry. apply skipn_map. Qed.

(** The eviction loop leaves the [max_size - 1] newest entries, or all of
    them when there are fewer; it does not raise on a positive capacity. *)
Lemma evict_oldest_spec m d :
  0 < m ->
  Cache.evict_oldest m d =
  Returns (skipn (Z.to_nat (Z.of_nat (length d) - m + 1)) d) tt.
Proof.
  intros Hm. induction d as [|[k e] rest IH].
  - simpl. rewrite Z.geb_leb. destruct (Z.leb_spec m 0); [lia|].
    now destruct (Z.to_nat _).
  - cbn [Cache.evict_oldest]. rewrite Z.geb_leb.
    destruct (Z.leb_spec m (Z.of_nat (length ((k, e) :: rest)))) as [E|E].
    + rewrite IH. simpl length in *.
      replace (Z.to_nat (Z.of_nat (S (length rest)) - m + 1))
        with (S (Z.to_nat (Z.of_nat (length rest) - m + 1))) by lia.
      reflexivity.
    + simpl length in *.
      replace (Z.to_nat (Z.of_nat (S (length rest)) - m + 1)) with O by lia.
      reflexivity.
Qed.

Lemma evict_oldest_below m d :
  Z.of_nat (length d) < m -> Cache.evict_oldest m d = Returns d tt.
Proof.
  intros H. rewrite evict_oldest_spec by lia.
  now replace (Z.to_nat _) with O by lia.
Qed.

Lemma evict_oldest_at_capacity m d :
  0 < m -> Z.of_nat (length d) = m ->
  Cache.evict_oldest m d = Returns (tl d) tt.
Proof.
  intros Hm H. rewrite evict_oldest_spec by lia.
  replace (Z.to_nat _) with 1%nat by lia. now destruct d.
Qed.

(** [set] on a cache of positive capacity: what it returns. *)
Lemma set_returns c key v ttl now :
  0 < Cache.max_size c ->
  Cache.set c key v ttl now =
  Returns
    (Cache.with_cache c
       (OrderedDict.setitem key
          (Cache.mkEntry v now (Cache.ttl_or ttl (Cache.default_ttl c)) 0)
          (skipn (Z.to_nat (Cache.size c - Cache.max_size c + 1))
                 (Cache._cache c))))
    tt.
Proof.
  intros Hm. unfold Cache.set. now rewrite evict_oldest_spec.
Qed.

(** On a full cache [set] drops the oldest entry before it assigns, whether
    or not the key is already there. *)
Lemma set_full c key v ttl now :
  0 < Cache.max_size c ->
  Cache.size c = Cache.max_size c ->
  Cache.set c key v ttl now =
  Returns
    (Cache.with_cache c
       (OrderedDict.setitem key
          (Cache.mkEntry v now (Cache.ttl_or ttl (Cache.default_ttl c)) 0)
          (tl (Cache._cache c))))
    tt.
Proof.
  intros Hm Hfull. unfold Cache.set.
  now rewrite evict_oldest_at_capacity.
Qed.

(** Below capacity nothing is evicted. *)
Lemma set_below_capacity c key v ttl now :
  Cache.size c < Cache.max_size c ->
  Cache.set c key v ttl now =
  Returns
    (Cache.with_cache c
       (OrderedDict.setitem key
          (Cache.mkEntry v now (Cache.ttl_or ttl (Cache.default_ttl c)) 0)
          (Cache._cache c)))
    tt.
Proof.
  intros H. unfold Cache.set. now rewrite evict_oldest_below.
Qed.

Lemma set_well_formed c key v ttl now :
  Cache.well_formed c ->
  exists c', Cache.set c key v ttl now = Returns c' tt
             /\ Cache.well_formed c'
             /\ Cache.max_size c' = Cache.max_size c.
Proof.
  intros (Hm & Hsz & Hwf). rewrite set_returns by assumption.
  eexists. split; [reflexivity|]. split; [|reflexivity].
  unfold Cache.well_formed, Cache.size in *. simpl.
  split; [assumption|]. split.
  - rewrite length_setitem.
    destruct (OrderedDict.contains _ _); rewrite length_skipn; lia.
  - auto using wf_skipn with odict.
Qed.

Lemma get_well_formed c key now :
  Cache.well_formed c ->
  Cache.well_formed (fst (Cache.get c key now))
  /\ Cache.max_size (fst (Cache.get c key now)) = Cache.max_size c.
Proof.
  intros (Hm & Hsz & Hwf). unfold Cache.get.
  destruct (OrderedDict.get key (Cache._cache c)) as [e|] eqn:E.
  - destruct (Cache.is_expired e now); simpl; (split; [|reflexivity]);
      unfold Cache.well_formed, Cache.size in *; simpl;
      (split; [assumption|]); split.
    + apply get_Some_in, (in_map fst), length_delitem in E. simpl in E. lia.
    + auto with odict.
    + rewrite length_replace, length_move_to_end. lia.
    + auto with odict.
  - simpl. split; [|reflexivity]. now split.
Qed.

Lemma step_well_formed c o :
  Cache.well_formed c ->
  Cache.well_formed (fst (Cache.step c o))
  /\ Cache.max_size (fst (Cache.step c o)) = Cache.max_size c.
Proof.
  intros H. destruct o as [key now | key v ttl now]; simpl.
  - pose proof (get_well_formed c key now H) as G.
    destruct (Cache.get c key now) as [c' [x|]]; exact G.
  - destruct (set_well_formed c key v ttl now H) as (c' & -> & G). exact G.
Qed.

Lemma step_completes c o :
  Cache.well_formed c -> forall x, snd (Cache.step c o) <> Cache.Failed x.
Proof.
  intros H x. destruct o as [key now | key v ttl now]; simpl.
  - destruct (Cache.get c key now) as [c' [y|]]; discriminate.
  - destruct (set_well_formed c key v ttl now H) as (c' & -> & _).
    discriminate.
Qed.

Lemma run_well_formed ops : forall c,
  Cache.well_formed c ->
  Forall (fun r => Cache.well_formed (fst r)
                   /\ Cache.max_size (fst r) = Cache.max_size c
                   /\ forall x, snd r <> Cache.Failed x)
         (Cache.run c ops).
Proof.
  induction ops as [|o ops IH]; intros c H; simpl; constructor.
  - split; [|split]; try now apply step_well_formed.
    now apply step_completes.
  - destruct (step_well_formed c o H) as [H1 H2].
    eapply Forall_impl; [|apply IH, H1].
    intros r (G1 & G2 & G3). split; [exact G1 | split; [congruence | exact G3]].
Qed.

Lemma new_well_formed m ttl name :
  0 < m -> Cache.well_formed (@Cache.new T m ttl name).
Proof.
  intros H. unfold Cache.well_formed, Cache.size. simpl.
  repeat split; [assumption | lia | auto with odict].
Qed.

(** *** Expiry *)

Lemma is_expired_false_iff e now :
  Cache.is_expired e now = false
  <-> (now - Cache.created_at e <= Cache.ttl e)%Q.
Proof.
  unfold Cache.is_expired. rewrite negb_false_iff. apply Qle_bool_iff.
Qed.

Lemma is_expired_true_iff e now :
  Cache.is_expired e now = true
  <-> (Cache.ttl e < now - Cache.created_at e)%Q.
Proof.
  unfold Cache.is_expired. rewrite negb_true_iff.
  rewrite <- not_true_iff_false, Qle_bool_iff. split.
  - apply Qnot_le_lt.
  - apply Qlt_not_le.
Qed.

(** *** What [get] does in each of its three cases *)

Lemma get_absent c key now :
  OrderedDict.get key (Cache._cache c) = None ->
  Cache.get c key now = (Cache.count_miss c, None).
Proof. intros E. unfold Cache.get. now rewrite E. Qed.

Lemma get_expired c key now e :
  OrderedDict.get key (Cache._cache c) = Some e ->
  Cache.is_expired e now = true ->
  Cache.get c key now =
  (Cache.count_miss
     (Cache.with_cache c (OrderedDict.delitem key (Cache._cache c))),
   None).
Proof. intros E X. unfold Cache.get. now rewrite E, X. Qed.

Lemma get_hit c key now e :
  OrderedDict.get key (Cache._cache c) = Some e ->
  Cache.is_expired e now = false ->
  Cache.get c key now =
  (Cache.count_hit
     (Cache.with_cache c
        (OrderedDict.replace key (Cache.touch e)
           (OrderedDict.move_to_end key (Cache._cache c)))),
   Some (Cache.value e)).
Proof. intros E X. unfold Cache.get. now rewrite E, X. Qed.

(** On distinct keys, a hit leaves the entry last in iteration order. *)
Lemma promote_last d key e :
  OrderedDict.wf d ->
  OrderedDict.get key d = Some e ->
  OrderedDict.replace key (Cache.touch e) (OrderedDict.move_to_end key d)
  = OrderedDict.delitem key d ++ [(key, Cache.touch e)].
Proof.
  intros Hwf E. unfold OrderedDict.move_to_end. rewrite E.
  apply replace_last. now apply keys_delitem_wf.
Qed.

(** *** Counters along a sequence *)

Lemma count_events_cons f (r : Cache.LRUCache T * Cache.event T) rs :
  Cache.count_events f (r :: rs)
  = Cache.tally (f (snd r)) + Cache.count_events f rs.
Proof.
  unfold Cache.count_events, Cache.tally. simpl.
  destruct (f (snd r)); simpl length; lia.
Qed.

Lemma final_nil c : Cache.final c [] = c.
Proof. reflexivity. Qed.

Lemma final_cons c o ops :
  Cache.final c (o :: ops) = Cache.final (fst (Cache.step c o)) ops.
Proof.
  unfold Cache.final. simpl.
  generalize (fst (Cache.step c o)) as c1. intros c1.
  destruct (Cache.run c1 ops) as [|r rs]; [reflexivity|].
  simpl. generalize (fst r) as x. generalize (map fst rs) as l. clear.
  induction l as [|y l IH]; intros x; [reflexivity|].
  simpl. destruct l; [reflexivity|]. apply (IH y).
Qed.

Lemma step_counters c o :
  Cache._hits (fst (Cache.step c o))
  = Cache._hits c + Cache.tally (Cache.is_hit (snd (Cache.step c o)))
  /\ Cache._misses (fst (Cache.step c o))
     = Cache._misses c + Cache.tally (Cache.is_miss (snd (Cache.step c o)))
  /\ Cache.name (fst (Cache.step c o)) = Cache.name c
  /\ Cache.max_size (fst (Cache.step c o)) = Cache.max_size c.
Proof.
  destruct o as [key now | key v ttl now]; simpl.
  - unfold Cache.get.
    destruct (OrderedDict.get key (Cache._cache c)) as [e|];
      [destruct (Cache.is_expired e now)|]; simpl;
      repeat split; unfold Cache.tally; lia.
  - unfold Cache.set.
    destruct (Cache.evict_oldest _ _); simpl;
      repeat split; unfold Cache.tally; lia.
Qed.

Lemma final_counters ops : forall c,
  Cache._hits (Cache.final c ops)
  = Cache._hits c + Cache.count_events Cache.is_hit (Cache.run c ops)
  /\ Cache._misses (Cache.final c ops)
     = Cache._misses c + Cache.count_events Cache.is_miss (Cache.run c ops)
  /\ Cache.name (Cache.final c ops) = Cache.name c
  /\ Cache.max_size (Cache.final c ops) = Cache.max_size c.
Proof.
  induction ops as [|o ops IH]; intros c.
  - rewrite final_nil. unfold Cache.count_events. simpl.
    repeat split; lia.
  - rewrite final_cons. cbn [Cache.run]. rewrite !count_events_cons.
    destruct (IH (fst (Cache.step c o))) as (H1 & H2 & H3 & H4).
    destruct (step_counters c o) as (G1 & G2 & G3 & G4).
    cbn [fst snd]. rewrite H1, H2, H3, H4, G1, G2, G3, G4.
    repeat split; lia.
Qed.

(** *** Storing under a key that is not in the cache *)

Lemma set_fresh_key c key v ttl now :
  Cache.well_formed c ->
  ~ In key (OrderedDict.keys (Cache._cache c)) ->
  Cache.set c key v ttl now =
  Returns
    (Cache.with_cache c
       ((if Cache.size c =? Cache.max_size c
         then tl (Cache._cache c) else Cache._cache c)
        ++ [(key, Cache.mkEntry v now
                    (Cache.ttl_or ttl (Cache.default_ttl c)) 0)]))
    tt.
Proof.
  intros (Hm & Hsz & Hwf) Hk. rewrite set_returns by assumption.
  do 2 f_equal. unfold Cache.size in *.
  destruct (Z.eqb_spec (Z.of_nat (length (Cache._cache c))) (Cache.max_size c))
    as [E|E].
  - replace (Z.to_nat _) with 1%nat by lia.
    destruct (Cache._cache c) as [|x d]; simpl skipn; simpl tl.
    + simpl in E. lia.
    + unfold OrderedDict.setitem.
      replace (OrderedDict.contains key d) with false; [reflexivity|].
      symmetry. apply contains_false_iff. simpl in Hk. tauto.
  - replace (Z.to_nat _) with O by lia. simpl skipn.
    unfold OrderedDict.setitem.
    replace (OrderedDict.contains key (Cache._cache c)) with false;
      [reflexivity|].
    symmetry. now apply contains_false_iff.
Qed.

Lemma step_set_fresh c key v ttl now :
  Cache.well_formed c ->
  ~ In key (OrderedDict.keys (Cache._cache c)) ->
  OrderedDict.keys (Cache._cache (fst (Cache.step c (Cache.OpSet key v ttl now))))
  = (if Cache.size c =? Cache.max_size c
     then tl (OrderedDict.keys (Cache._cache c))
     else OrderedDict.keys (Cache._cache c)) ++ [key].
Proof.
  intros Hc Hk. simpl. rewrite set_fresh_key by assumption. simpl.
  rewrite keys_app. simpl.
  destruct (Cache.size c =? Cache.max_size c); [|reflexivity].
  now destruct (Cache._cache c).
Qed.

Lemma skipn_last_cons (A : Type) (n : nat) (x : A) (l : list A) :
  (n <= length l)%nat ->
  skipn (length (x :: l) - n) (x :: l) = skipn (length l - n) l.
Proof.
  intros H. simpl length.
  replace (S (length l) - n)%nat with (S (length l - n)) by lia.
  reflexivity.
Qed.

(** Storing under keys that are new and pairwise distinct leaves the
    [max_size] keys stored last, in the order they were stored. *)
Lemma run_sets_fresh ops : forall c,
  Cache.well_formed c ->
  forallb Cache.is_set ops = true ->
  NoDup (OrderedDict.keys (Cache._cache c) ++ map Cache.op_key ops) ->
  OrderedDict.keys (Cache._cache (Cache.final c ops))
  = let all := OrderedDict.keys (Cache._cache c) ++ map Cache.op_key ops in
    skipn (length all - Z.to_nat (Cache.max_size c)) all.
Proof.
  induction ops as [|o ops IH]; intros c Hc Hset Hnd; cbv zeta.
  - rewrite final_nil. simpl. rewrite app_nil_r.
    destruct Hc as (Hm & Hsz & _). unfold Cache.size, OrderedDict.keys in *.
    rewrite length_map.
    now replace (length (Cache._cache c) - _)%nat with O by lia.
  - destruct o as [key now | key v ttl now]; [discriminate|].
    simpl in Hset. rewrite final_cons.
    assert (Hk : ~ In key (OrderedDict.keys (Cache._cache c))).
    { intros Hin. apply NoDup_remove_2 in Hnd. apply Hnd, in_or_app. tauto. }
    destruct (step_well_formed c (Cache.OpSet key v ttl now) Hc) as [Hc1 Hm1].
    pose proof (step_set_fresh c key v ttl now Hc Hk) as Hkeys.
    set (c1 := fst (Cache.step c (Cache.OpSet key v ttl now))) in *.
    assert (Hsize : Cache.size c
                    = Z.of_nat (length (OrderedDict.keys (Cache._cache c)))).
    { unfold Cache.size, OrderedDict.keys. now rewrite length_map. }
    destruct Hc as (Hm & Hsz & _).
    cbn [map Cache.op_key] in *.
    destruct (Z.eqb_spec (Cache.size c) (Cache.max_size c)) as [E|E].
    + destruct (OrderedDict.keys (Cache._cache c)) as [|x t] eqn:Ek;
        [simpl in Hsize; lia|].
      simpl tl in Hkeys.
      rewrite IH; [|assumption|assumption|].
      * cbv zeta. rewrite Hkeys, Hm1, <- app_assoc. cbn [app].
        symmetry. apply skipn_last_cons.
        rewrite length_app. simpl length in *. lia.
      * rewrite Hkeys, <- app_assoc. cbn [app] in *. now inversion Hnd.
    + rewrite IH; [|assumption|assumption|].
      * cbv zeta. rewrite Hkeys, Hm1, <- app_assoc. reflexivity.
      * rewrite Hkeys, <- app_assoc. exact Hnd.
Qed.

(** *** Reading back what was stored *)

(** Within its TTL an entry is returned; past it the lookup misses and the
    entry is gone.  The TTL of the entry is [ttl or default_ttl]. *)
Lemma get_after_set c key v ttl t0 t1 :
  0 < Cache.max_size c ->
  exists c',
    Cache.set c key v ttl t0 = Returns c' tt
    /\ ((t1 - t0 <= Cache.ttl_or ttl (Cache.default_ttl c))%Q ->
        snd (Cache.get c' key t1) = Some v)
    /\ ((Cache.ttl_or ttl (Cache.default_ttl c) < t1 - t0)%Q ->
        OrderedDict.wf (Cache._cache c) ->
        snd (Cache.get c' key t1) = None
        /\ OrderedDict.get key (Cache._cache (fst (Cache.get c' key t1)))
           = None).
Proof.
  intros Hm. rewrite set_returns by assumption.
  eexists. split; [reflexivity|]. split.
  - intros Hle. erewrite get_hit; cycle 1.
    + simpl. apply get_setitem_same.
    + now apply is_expired_false_iff.
    + reflexivity.
  - intros Hlt Hwf. erewrite get_expired; cycle 1.
    + simpl. apply get_setitem_same.
    + now apply is_expired_true_iff.
    + simpl. split; [reflexivity|].
      apply get_None_notin, keys_delitem_wf.
      auto using wf_skipn with odict.
Qed.

End CacheFacts.

(** *** Worked examples *)

Example three_keys_capacity_two :
  OrderedDict.keys
    (Cache._cache
       (Cache.final (Cache.new 2 300 "cache")
          [Cache.OpSet "a" 1 None 0; Cache.OpSet "b" 2 None 0;
           Cache.OpSet "c" 3 None 0]))
  = ["b"; "c"].
Proof. reflexivity. Qed.

Example capacity_one_evicts_then_inserts :
  map snd (Cache.run (Cache.new 1 300 "cache")
             [Cache.OpSet "a" 1 None 0; Cache.OpSet "b" 2 None 0;
              Cache.OpGet "a" 0; Cache.OpGet "b" 0])
  = [Cache.Stored; Cache.Stored; Cache.Miss; Cache.Hit 2].
Proof. reflexivity. Qed.

Example expired_entry_is_dropped_on_read :
  let r := Cache.run (Cache.new 2 300 "cache")
             [Cache.OpSet "a" 1 (Some 10%Q) 0; Cache.OpGet "a" 10;
              Cache.OpGet "a" 11; Cache.OpGet "a" 5] in
  map snd r = [Cache.Stored; Cache.Hit 1; Cache.Miss; Cache.Miss]
  /\ map (fun x => Cache.size (fst x)) r = [1; 1; 0; 0].
Proof. split; reflexivity. Qed.

Example zero_capacity_set_raises :
  Cache.set (Cache.new 0 300 "cache") "a" 1 None 0
  = Raises (Cache.new 0 300 "cache") StopIteration.
Proof. reflexivity. Qed.

Example hit_rate_examples :
  map (fun hm => format_1f (PrimFloat.mul (int_truediv (fst hm) (snd hm))
                                          (int_to_float 100)))
      [(1, 2); (1, 3); (2, 3); (1, 8); (1, 16); (1, 2000); (5, 5)]
  = ["50.0"; "33.3"; "66.7"; "12.5"; "6.2"; "0.1"; "100.0"].
Proof. reflexivity. Qed.

(** * The properties claimed of the cache *)

(** C1: the code does not do this when the key is present.  The eviction
    loop of [set] runs whenever the cache is full, whether or not the key is
    new, and assignment to a present key keeps its place in the order.
    On every full cache [set] drops the oldest entry before it assigns.
    With capacity 2, after [set(a,1); set(b,2)], [set(b,3)] evicts [a] and
    the size drops from 2 to 1.  With capacity 3, after [set(a,1); set(b,2)],
    [set(a,5)] leaves [a] first in eviction order, before [b]. *)
Theorem set_present_key_evicts_and_keeps_place :
  (forall (T : Type) (c : Cache.LRUCache T) key v ttl now,
      0 < Cache.max_size c ->
      Cache.size c = Cache.max_size c ->
      Cache.set c key v ttl now =
      Returns
        (Cache.with_cache c
           (OrderedDict.setitem key
              (Cache.mkEntry v now (Cache.ttl_or ttl (Cache.default_ttl c)) 0)
              (tl (Cache._cache c))))
        tt)
  /\
  (let c := Cache.final (Cache.new 2 300 "cache")
              [Cache.OpSet "a" 1 None 0; Cache.OpSet "b" 2 None 0] in
   OrderedDict.keys (Cache._cache c) = ["a"; "b"]
   /\ Cache.size c = 2
   /\ exists c',
       Cache.set c "b" 3 None 1 = Returns c' tt
       /\ OrderedDict.keys (Cache._cache c') = ["b"]
       /\ Cache.size c' = 1)
  /\
  (let c := Cache.final (Cache.new 3 300 "cache")
              [Cache.OpSet "a" 1 None 0; Cache.OpSet "b" 2 None 0] in
   OrderedDict.keys (Cache._cache c) = ["a"; "b"]
   /\ exists c',
       Cache.set c "a" 5 None 1 = Returns c' tt
       /\ Cache._cache c' = [("a", Cache.mkEntry 5 1 300 0);
                             ("b", Cache.mkEntry 2 0 300 0)]).
Proof.
  split; [|split]; cbv zeta.
  - intros. now apply set_full.
  - split; [reflexivity|]. split; [reflexivity|].
    eexists. split; [reflexivity|]. split; reflexivity.
  - split; [reflexivity|]. eexists. split; reflexivity.
Qed.

(** C4: the code does not do this.  [set] computes the entry's TTL as
    [ttl or self.default_ttl], so a TTL of zero is replaced by the default:
    [set(key, value, ttl=0)] is [set(key, value)].  On a cache with the
    default TTL of 300 seconds, the entry stored with [ttl=0] at time 0 has
    TTL 300 and a [get] one second later returns the value. *)
Theorem set_ttl_zero_takes_default_ttl :
  (forall (T : Type) (c : Cache.LRUCache T) key v now,
      Cache.set c key v (Some 0%Q) now = Cache.set c key v None now)
  /\
  (let c := Cache.new 100 300 "cache" in
   exists c',
     Cache.set c "k" 1 (Some 0%Q) 0 = Returns c' tt
     /\ OrderedDict.get "k" (Cache._cache c') = Some (Cache.mkEntry 1 0 300 0)
     /\ snd (Cache.get c' "k" 1) = Some 1).
Proof.
  split.
  - reflexivity.
  - cbv zeta. eexists. split; [reflexivity|]. split; reflexivity.
Qed.

(** C5 (as amended): after a sequence of operations with [h] hits and [m]
    misses, [stats] reports [name], [size], [max_size], [hits = h],
    [misses = m], and as [hit_rate] a string: the percentage
    [h / (h + m) * 100] printed with one decimal and a percent sign, or
    ["0.0%"] when there was no access.  The counters are taken below [2^53],
    where the conversion to a float is exact. *)
Theorem stats_reports_percentage (T : Type)
  (max_size : Z) (default_ttl : Q) (name : string) (ops : list (Cache.op T)) :
  let c0 := Cache.new max_size default_ttl name in
  let h := Cache.count_events Cache.is_hit (Cache.run c0 ops) in
  let m := Cache.count_events Cache.is_miss (Cache.run c0 ops) in
  h + m < 2 ^ 53 ->
  Cache.stats (Cache.final c0 ops) =
  [ ("name", PyStr name);
    ("size", PyInt (Cache.size (Cache.final c0 ops)));
    ("max_size", PyInt max_size);
    ("hits", PyInt h);
    ("misses", PyInt m);
    ("hit_rate",
     PyStr ((if h + m >? 0
             then format_1f (PrimFloat.mul (int_truediv h (h + m))
                                           (int_to_float 100))
             else "0.0") ++ "%")) ].
Proof.
  intros c0 h m _.
  destruct (final_counters T ops c0) as (H1 & H2 & H3 & H4).
  unfold Cache.stats. rewrite H1, H2, H3, H4. fold h m. simpl.
  destruct (h + m >? 0); reflexivity.
Qed.

Lemma stats_reports_percentage_witness :
  Cache.stats
    (Cache.final (Cache.new 2 300 "cache")
       [Cache.OpSet "a" 7 None 0; Cache.OpGet "a" 1; Cache.OpGet "b" 2;
        Cache.OpGet "c" 3]) =
  [ ("name", PyStr "cache"); ("size", PyInt 1); ("max_size", PyInt 2);
    ("hits", PyInt 1); ("misses", PyInt 2); ("hit_rate", PyStr "33.3%") ].
Proof.
  exact (stats_reports_percentage Z 2 300 "cache"
           [Cache.OpSet "a" 7 None 0; Cache.OpGet "a" 1; Cache.OpGet "b" 2;
            Cache.OpGet "c" 3] eq_refl).
Defined.

(** C5, as stated, fails: with no access the reported [hit_rate] is the
    string ["0.0%"], not the number [0]; with one hit and one miss it is the
    string ["50.0%"], not the ratio [1 / 2]. *)
Lemma stats_hit_rate_is_not_the_ratio :
  (let c := Cache.final (Cache.new 2 300 "cache") ([] : list (Cache.op Z)) in
   Cache._hits c + Cache._misses c = 0
   /\ OrderedDict.get "hit_rate" (Cache.stats c) = Some (PyStr "0.0%")
   /\ OrderedDict.get "hit_rate" (Cache.stats c) <> Some (PyInt 0))
  /\
  (let c := Cache.final (Cache.new 2 300 "cache")
              [Cache.OpSet "a" 7 None 0; Cache.OpGet "a" 1;
               Cache.OpGet "b" 2] in
   Cache._hits c = 1 /\ Cache._misses c = 1
   /\ OrderedDict.get "hit_rate" (Cache.stats c) = Some (PyStr "50.0%")
   /\ OrderedDict.get "hit_rate" (Cache.stats c)
      <> Some (PyFloat (int_truediv 1 (1 + 1)))).
Proof.
  split; cbv zeta; repeat split; try reflexivity; vm_compute; discriminate.
Qed.

(** C6: on a cache built with a positive capacity, every operation of a
    sequence of [set] and [get] calls (any keys, values, TTLs and clock
    readings) completes, and after each of them the cache holds at most
    [max_size] entries, no two under one key. *)
Theorem size_bounded_keys_distinct (T : Type)
  (max_size : Z) (default_ttl : Q) (name : string)
  (ops : list (Cache.op T)) :
  0 < max_size ->
  Forall (fun r =>
            Cache.size (fst r) <= max_size
            /\ NoDup (OrderedDict.keys (Cache._cache (fst r)))
            /\ forall x, snd r <> Cache.Failed x)
         (Cache.run (Cache.new max_size default_ttl name) ops).
Proof.
  intros Hm.
  pose proof (run_well_formed T ops _
                (new_well_formed T max_size default_ttl name Hm))
    as H.
  eapply Forall_impl; [|exact H].
  intros r ((_ & Hsz & Hwf) & Hmax & Hok). simpl in Hmax.
  rewrite Hmax in Hsz. auto.
Qed.


Lemma size_bounded_keys_distinct_witness :
  0 < 2 /\
  Forall (fun r =>
            Cache.size (fst r) <= 2
            /\ NoDup (OrderedDict.keys (Cache._cache (fst r)))
            /\ forall x, snd r <> Cache.Failed x)
         (Cache.run (Cache.new 2 300 "cache")
            [Cache.OpSet "a" 1 None 0; Cache.OpSet "b" 2 (Some 5%Q) 1;
             Cache.OpGet "a" 2; Cache.OpSet "c" 3 None 3;
             Cache.OpGet "b" 10; Cache.OpSet "c" 4 (Some 0%Q) 400]).
Proof.
  split; [lia|]. apply (size_bounded_keys_distinct Z 2 300 "cache"). lia.
Defined.

(** C7: a [get] that hits moves the entry to the most-recently-used end;
    [set] under a new key evicts the least-recently-used entry, and only
    it, exactly when the cache is full.  With capacity 2,
    [set(a); set(b); get(a); set(c)] with [get(a)] a hit leaves the keys
    [a, c]; storing any number of new, pairwise distinct keys into an empty
    cache leaves the [max_size] keys stored last (with [max_size + 1] keys:
    all but the first). *)
Theorem lru_promotion_and_eviction (T : Type) :
  (forall (c : Cache.LRUCache T) key now e,
      OrderedDict.wf (Cache._cache c) ->
      OrderedDict.get key (Cache._cache c) = Some e ->
      Cache.is_expired e now = false ->
      exists c',
        Cache.get c key now = (c', Some (Cache.value e))
        /\ Cache._cache c'
           = OrderedDict.delitem key (Cache._cache c)
               ++ [(key, Cache.touch e)])
  /\
  (forall default_ttl name (v1 v2 v3 : T) (t1 t2 t3 t4 : Q),
      (t3 - t1 <= default_ttl)%Q ->
      let r := Cache.run (Cache.new 2 default_ttl name)
                 [Cache.OpSet "a" v1 None t1; Cache.OpSet "b" v2 None t2;
                  Cache.OpGet "a" t3; Cache.OpSet "c" v3 None t4] in
      map snd r = [Cache.Stored; Cache.Stored; Cache.Hit v1; Cache.Stored]
      /\ OrderedDict.keys (Cache._cache (last (map fst r)
                                           (Cache.new 2 default_ttl name)))
         = ["a"; "c"])
  /\
  (forall (c : Cache.LRUCache T) key v ttl now,
      Cache.well_formed c ->
      ~ In key (OrderedDict.keys (Cache._cache c)) ->
      exists c',
        Cache.set c key v ttl now = Returns c' tt
        /\ Cache._cache c'
           = (if Cache.size c =? Cache.max_size c
              then tl (Cache._cache c) else Cache._cache c)
               ++ [(key, Cache.mkEntry v now
                           (Cache.ttl_or ttl (Cache.default_ttl c)) 0)])
  /\
  (forall max_size default_ttl name (ops : list (Cache.op T)),
      0 < max_size ->
      forallb Cache.is_set ops = true ->
      NoDup (map Cache.op_key ops) ->
      OrderedDict.keys
        (Cache._cache (Cache.final (Cache.new max_size default_ttl name) ops))
      = skipn (length ops - Z.to_nat max_size) (map Cache.op_key ops)).
Proof.
  repeat split.
  - intros c key now e Hwf E X. eexists. split.
    + apply get_hit; eassumption.
    + simpl. now apply promote_last.
  - cbv zeta. simpl.
    assert (X : Cache.is_expired (Cache.mkEntry v1 t1 default_ttl 0) t3 = false)
      by now apply is_expired_false_iff.
    unfold Cache.get. simpl. rewrite X. reflexivity.
  - cbv zeta. simpl.
    assert (X : Cache.is_expired (Cache.mkEntry v1 t1 default_ttl 0) t3 = false)
      by now apply is_expired_false_iff.
    unfold Cache.get. simpl. rewrite X. reflexivity.
  - intros c key v ttl now Hc Hk. eexists. split.
    + now apply set_fresh_key.
    + reflexivity.
  - intros max_size default_ttl name ops Hm Hset Hnd.
    rewrite run_sets_fresh; try assumption.
    + cbv zeta. simpl. now rewrite length_map.
    + now apply new_well_formed.
Qed.

Lemma lru_promotion_and_eviction_witness :
  (let r := Cache.run (Cache.new 2 300 "cache")
              [Cache.OpSet "a" 1 None 0; Cache.OpSet "b" 2 None 1;
               Cache.OpGet "a" 2; Cache.OpSet "c" 3 None 3] in
   map snd r = [Cache.Stored; Cache.Stored; Cache.Hit 1; Cache.Stored]
   /\ OrderedDict.keys (Cache._cache (last (map fst r)
                                        (Cache.new 2 300 "cache")))
      = ["a"; "c"])
  /\
  OrderedDict.keys
    (Cache._cache
       (Cache.final (Cache.new 2 300 "cache")
          [Cache.OpSet "a" 1 None 0; Cache.OpSet "b" 2 None 1;
           Cache.OpSet "c" 3 None 2]))
  = ["b"; "c"].
Proof.
  destruct (lru_promotion_and_eviction Z) as (_ & Hscenario & _ & Hfresh).
  split.
  - apply (Hscenario 300%Q "cache" 1 2 3 0%Q 1%Q 2%Q 3%Q). vm_compute.
    discriminate.
  - apply (Hfresh 2 300%Q "cache"
             [Cache.OpSet "a" 1 None 0; Cache.OpSet "b" 2 None 1;
              Cache.OpSet "c" 3 None 2]).
    + lia.
    + reflexivity.
    + repeat constructor; simpl; intuition discriminate.
Defined.

(** C10: on a cache of positive capacity, in whatever state,
    [set_vacancy_analysis(text, model, result)] returns, and a
    [get_vacancy_analysis(text, model)] that follows it with the clock
    unchanged returns [result]. *)
Theorem vacancy_analysis_round_trip (R : Type) (md5_hexdigest : string -> string)
  (c : Cache.LRUCache R) (vacancy_text model : string) (result : R) (now : Q) :
  0 < Cache.max_size c ->
  exists c',
    AIResponseCache.set_vacancy_analysis md5_hexdigest c vacancy_text model
      result now = Returns c' tt
    /\ snd (AIResponseCache.get_vacancy_analysis md5_hexdigest c' vacancy_text
              model now) = Some result.
Proof.
  intros Hm.
  unfold AIResponseCache.set_vacancy_analysis,
    AIResponseCache.get_vacancy_analysis.
  rewrite set_returns by assumption.
  eexists. split; [reflexivity|].
  erewrite get_hit; cycle 1.
  - simpl. apply get_setitem_same.
  - apply is_expired_false_iff. simpl.
    unfold AIResponseCache.TTL_VACANCY_ANALYSIS. lra.
  - reflexivity.
Qed.

Lemma vacancy_analysis_round_trip_witness :
  exists c',
    AIResponseCache.set_vacancy_analysis (fun s => s)
      (AIResponseCache.new 200) "Senior Rocq engineer" "mistral" 42 17
    = Returns c' tt
    /\ snd (AIResponseCache.get_vacancy_analysis (fun s => s) c'
              "Senior Rocq engineer" "mistral" 17) = Some 42.
Proof.
  apply (vacancy_analysis_round_trip Z (fun s => s) (AIResponseCache.new 200)).
  simpl. lia.
Defined.

(** * The keyed response cache *)

Section StringFacts.

Lemma str_take_app n : forall s1 s2,
  str_take n (s1 ++ s2)%string
  = (str_take n s1 ++ str_take (n - String.length s1) s2)%string.
Proof.
  induction n as [|n IH]; intros [|a s1] s2; simpl.
  - now destruct s2.
  - reflexivity.
  - reflexivity.
  - now rewrite IH.
Qed.

Lemma length_str_take n : forall s,
  String.length (str_take n s) = Nat.min n (String.length s).
Proof.
  induction n as [|n IH]; intros [|a s]; simpl; auto.
Qed.

Lemma str_take_all n : forall s,
  (String.length s <= n)%nat -> str_take n s = s.
Proof.
  induction n as [|n IH]; intros [|a s] H; simpl in *; try reflexivity.
  - lia.
  - f_equal. apply IH. lia.
Qed.

Lemma str_take_idem n s : str_take n (str_take n s) = str_take n s.
Proof. apply str_take_all. rewrite length_str_take. lia. Qed.

Lemma length_str_repeat a n : String.length (str_repeat a n) = n.
Proof. induction n; simpl; congruence. Qed.

End StringFacts.

Section AIResponseCacheFacts.
Variable md5_hexdigest : string -> string.

(** The prefix of [combined] that [_make_key] hashes: once the vacancy text
    has 499 characters or more, nothing of the resume is in it. *)
Lemma combined_prefix_long vacancy_text resume_text :
  (499 <= String.length vacancy_text)%nat ->
  str_take 500 (AIResponseCache.combined vacancy_text resume_text)
  = str_take 500 (str_take 500 vacancy_text ++ "|")%string.
Proof.
  intros H. unfold AIResponseCache.combined.
  rewrite !str_take_app, str_take_idem, length_str_take.
  f_equal.
  destruct (Nat.eq_dec (String.length vacancy_text) 499) as [E|E].
  - rewrite E. reflexivity.
  - replace (500 - Nat.min 500 (String.length vacancy_text))%nat with O by lia.
    reflexivity.
Qed.

End AIResponseCacheFacts.

(** C3: the code does not do this.  [get_recruiter_analysis] and
    [set_recruiter_analysis] join the two truncated texts and hand the result
    to [_make_key], which truncates again to 500 characters before hashing.
    When the vacancy text has 499 characters or more, the resume is cut off
    entirely: two requests that differ only in their resumes get the same
    key, whatever the digest, and the second is answered with what was
    cached for the first. *)
Theorem recruiter_key_ignores_resume (R : Type)
  (md5_hexdigest : string -> string) (c : Cache.LRUCache R)
  (vacancy_text resume1 resume2 model : string) (result : R) (now : Q) :
  (499 <= String.length vacancy_text)%nat ->
  0 < Cache.max_size c ->
  AIResponseCache._make_key md5_hexdigest
    (AIResponseCache.combined vacancy_text resume1) model
  = AIResponseCache._make_key md5_hexdigest
      (AIResponseCache.combined vacancy_text resume2) model
  /\ exists c',
      AIResponseCache.set_recruiter_analysis md5_hexdigest c vacancy_text
        resume1 model result now = Returns c' tt
      /\ snd (AIResponseCache.get_recruiter_analysis md5_hexdigest c'
                vacancy_text resume2 model now) = Some result.
Proof.
  intros Hlen Hm.
  assert (Hkey :
    AIResponseCache._make_key md5_hexdigest
      (AIResponseCache.combined vacancy_text resume1) model
    = AIResponseCache._make_key md5_hexdigest
        (AIResponseCache.combined vacancy_text resume2) model).
  { unfold AIResponseCache._make_key.
    now rewrite !combined_prefix_long by assumption. }
  split; [exact Hkey|].
  unfold AIResponseCache.set_recruiter_analysis,
    AIResponseCache.get_recruiter_analysis.
  rewrite <- Hkey, set_returns by assumption.
  eexists. split; [reflexivity|].
  erewrite get_hit; cycle 1.
  - simpl. apply get_setitem_same.
  - apply is_expired_false_iff. simpl.
    unfold AIResponseCache.TTL_RECRUITER_ANALYSIS. lra.
  - reflexivity.
Qed.

Lemma recruiter_key_ignores_resume_witness :
  let vacancy_text := str_repeat "a" 500 in
  AIResponseCache._make_key (fun s => s)
    (AIResponseCache.combined vacancy_text "resume of Ann") "mistral"
  = AIResponseCache._make_key (fun s => s)
      (AIResponseCache.combined vacancy_text "resume of Bob") "mistral"
  /\ exists c',
      AIResponseCache.set_recruiter_analysis (fun s => s)
        (AIResponseCache.new 200) vacancy_text "resume of Ann" "mistral"
        1 0 = Returns c' tt
      /\ snd (AIResponseCache.get_recruiter_analysis (fun s => s) c'
                vacancy_text "resume of Bob" "mistral" 0) = Some 1.
Proof.
  apply (recruiter_key_ignores_resume Z (fun s => s) (AIResponseCache.new 200)
           (str_repeat "a" 500) "resume of Ann" "resume of Bob" "mistral"
           1 0%Q).
  - apply Nat.leb_le. vm_compute. reflexivity.
  - simpl. lia.
Defined.

Section CachedCallFacts.
Variables (R W : Type).
Implicit Types (g : option (Cache.LRUCache R)) (w : W) (func : W -> W * option R).

(** A lookup that misses leaves no entry under the key. *)
Lemma get_miss_absent (c : Cache.LRUCache R) key now :
  OrderedDict.wf (Cache._cache c) ->
  snd (Cache.get c key now) = None ->
  OrderedDict.get key (Cache._cache (fst (Cache.get c key now))) = None.
Proof.
  intros Hwf. unfold Cache.get.
  destruct (OrderedDict.get key (Cache._cache c)) as [e|] eqn:E.
  - destruct (Cache.is_expired e now); [|discriminate].
    intros _. simpl. apply get_None_notin. now apply keys_delitem_wf.
  - intros _. simpl. exact E.
Qed.

(** On a miss followed by a [None] from [func], nothing is stored: the
    cache is as the lookup left it, without an entry under the key. *)
Lemma cached_ai_call_none g w w' cache_key ttl func now_get now_set :
  OrderedDict.wf (Cache._cache (AIResponseCache.get_ai_cache g)) ->
  snd (Cache.get (AIResponseCache.get_ai_cache g) cache_key now_get) = None ->
  func w = (w', None) ->
  let cache := fst (Cache.get (AIResponseCache.get_ai_cache g) cache_key now_get) in
  AIResponseCache.cached_ai_call g w cache_key ttl func now_get now_set
  = Returns (cache, w') None
  /\ OrderedDict.get cache_key (Cache._cache cache) = None.
Proof.
  intros Hwf Hmiss Hf. cbv zeta. split.
  - unfold AIResponseCache.cached_ai_call.
    destruct (Cache.get _ cache_key now_get) as [c1 cached].
    simpl in Hmiss. subst cached. now rewrite Hf.
  - now apply get_miss_absent.
Qed.

(** On a miss followed by a response, the response is stored under the key;
    its TTL is the given one when that is not zero. *)
Lemma cached_ai_call_some g w w' v cache_key ttl func now_get now_set :
  0 < Cache.max_size (AIResponseCache.get_ai_cache g) ->
  snd (Cache.get (AIResponseCache.get_ai_cache g) cache_key now_get) = None ->
  func w = (w', Some v) ->
  exists cache,
    AIResponseCache.cached_ai_call g w cache_key ttl func now_get now_set
    = Returns (cache, w') (Some v)
    /\ OrderedDict.get cache_key (Cache._cache cache)
       = Some (Cache.mkEntry v now_set
                 (if Qeq_bool ttl 0
                  then Cache.default_ttl (AIResponseCache.get_ai_cache g)
                  else ttl) 0).
Proof.
  intros Hm Hmiss Hf. unfold AIResponseCache.cached_ai_call.
  assert (Hmax : Cache.max_size
                   (fst (Cache.get (AIResponseCache.get_ai_cache g)
                           cache_key now_get))
                 = Cache.max_size (AIResponseCache.get_ai_cache g)).
  { unfold Cache.get.
    destruct (OrderedDict.get _ _) as [e|];
      [destruct (Cache.is_expired e now_get)|]; reflexivity. }
  assert (Httl : Cache.default_ttl
                   (fst (Cache.get (AIResponseCache.get_ai_cache g)
                           cache_key now_get))
                 = Cache.default_ttl (AIResponseCache.get_ai_cache g)).
  { unfold Cache.get.
    destruct (OrderedDict.get _ _) as [e|];
      [destruct (Cache.is_expired e now_get)|]; reflexivity. }
  destruct (Cache.get _ cache_key now_get) as [c1 cached].
  simpl in Hmiss, Hmax, Httl. subst cached. rewrite Hf.
  rewrite set_returns by lia.
  eexists. split; [reflexivity|].
  simpl. rewrite get_setitem_same, Httl. reflexivity.
Qed.

End CachedCallFacts.

(** C8: the code does not do this for a TTL of zero.  [cached_ai_call]
    passes its [ttl] to [LRUCache.set], where [ttl or self.default_ttl]
    replaces a zero by the default (one hour for the response cache): the
    response computed with [ttl = 0] is stored with a TTL of 3600 seconds,
    and a call one second later is served from the cache without calling
    [func].  (The collaborator's world counts the calls of [func].) *)
Theorem cached_ai_call_ttl_zero_stored_for_an_hour :
  let func := fun calls : nat => (S calls, Some 7) in
  exists c1 c2,
    AIResponseCache.cached_ai_call None O "k" 0 func 0 0
    = Returns (c1, 1%nat) (Some 7)
    /\ OrderedDict.get "k" (Cache._cache c1) = Some (Cache.mkEntry 7 0 3600 0)
    /\ AIResponseCache.cached_ai_call (Some c1) 1%nat "k" 0 func 1 1
       = Returns (c2, 1%nat) (Some 7).
Proof.
  cbv zeta. do 2 eexists. split; [reflexivity|]. split; reflexivity.
Qed.

(** * The connection pool *)

Section PoolFacts.
Import Database.
Implicit Types (p : DatabasePool) (fuel n : nat).

(** While the queue has room, the loop of [initialize] makes [n] new
    connections and puts each on the roster and in the queue. *)
Lemma connect_all_room n : forall p,
  pool_size p <= 0
  \/ Z.of_nat (length (_pool p)) + Z.of_nat n <= pool_size p ->
  connect_all n p =
  Done (mkPool (pool_size p)
               (_pool p ++ seq (connected p) n)
               (_connections p ++ seq (connected p) n)
               (_locked p) (_initialized p) (connected p + n)%nat) tt.
Proof.
  induction n as [|n IH]; intros p H.
  - destruct p. simpl. now rewrite !app_nil_r, Nat.add_0_r.
  - cbn [connect_all connect]. unfold put, full. cbn [pool_size _pool].
    replace ((0 <? pool_size p)
             && (pool_size p <=? Z.of_nat (length (_pool p)))) with false.
    + rewrite IH.
      * unfold with_pool. cbn [pool_size _pool _connections _locked
                               _initialized connected].
        rewrite <- !app_assoc. cbn [app seq].
        now replace (S (connected p) + n)%nat with (connected p + S n)%nat
          by lia.
      * unfold with_pool. cbn [pool_size _pool]. rewrite length_app.
        simpl length. lia.
    + symmetry. apply andb_false_iff.
      destruct H as [H|H]; [left; apply Z.ltb_ge | right; apply Z.leb_gt]; lia.
Qed.

Lemma connect_all_new (size : Z) :
  connect_all (Z.to_nat size) (with_lock (new size) true) =
  Done (mkPool size (seq 0 (Z.to_nat size)) (seq 0 (Z.to_nat size))
               true false (Z.to_nat size)) tt.
Proof. rewrite connect_all_room; [reflexivity | simpl; lia]. Qed.

(** One unfolding of [initialize] on the new pool, up to the schema step. *)
Ltac enter_initialize size :=
  cbn [initialize];
  change (_initialized (new size)) with false;
  change (_locked (new size)) with false; cbv iota zeta;
  change (_initialized (with_lock (new size) true)) with false; cbv iota;
  change (pool_size (with_lock (new size) true)) with size;
  rewrite connect_all_new.

(** The state in which the first [initialize] is left suspended. *)
Lemma initialize_new_blocks (size : Z) fuel :
  initialize (3 + fuel) (new size) =
  Blocks (mkPool size (seq 0 (Z.to_nat size)) (seq 0 (Z.to_nat size))
                 true false (Z.to_nat size)).
Proof.
  change (3 + fuel)%nat with (S (S (S fuel))).
  enter_initialize size. reflexivity.
Qed.

Lemma initialize_short_of_fuel (size : Z) fuel :
  (fuel < 3)%nat -> initialize fuel (new size) = OutOfFuel.
Proof.
  intros H.
  destruct fuel as [|[|[|fuel]]]; [reflexivity| | |lia];
    enter_initialize size; reflexivity.
Qed.

(** On a pool that is marked ready, [initialize] returns at once and
    changes nothing. *)
Lemma initialize_when_ready p fuel :
  _initialized p = true -> initialize (S fuel) p = Done p tt.
Proof. intros H. cbn [initialize]. now rewrite H. Qed.

End PoolFacts.

(** C2: the code does not do this.  The first [initialize] takes
    [self._lock], creates [pool_size] connections, and then enters
    [self.acquire()] to create the schema while [self._initialized] is still
    false; [acquire] therefore calls [initialize] again, which waits for the
    lock its own caller holds.  The call never returns and the pool is never
    marked ready: with enough nesting depth the model ends in [Blocks], with
    [pool_size] connections created, the lock held and [_initialized] false;
    with less it only runs out of depth. *)
Theorem initialize_first_call_blocks (size : Z) :
  (forall fuel,
      Database.initialize (3 + fuel) (Database.new size)
      = Database.Blocks
          (Database.mkPool size (seq 0 (Z.to_nat size)) (seq 0 (Z.to_nat size))
             true false (Z.to_nat size)))
  /\ (forall fuel p,
         Database.initialize fuel (Database.new size) <> Database.Done p tt)
  /\ (forall fuel n p,
         Database.initialize_times fuel (S n) (Database.new size)
         <> Database.Done p tt).
Proof.
  assert (Hnever : forall fuel p,
             Database.initialize fuel (Database.new size)
             <> Database.Done p tt).
  { intros fuel p. destruct (Nat.lt_ge_cases fuel 3) as [H|H].
    - now rewrite initialize_short_of_fuel.
    - replace fuel with (3 + (fuel - 3))%nat by lia.
      now rewrite initialize_new_blocks. }
  split; [apply initialize_new_blocks|]. split; [exact Hnever|].
  intros fuel n p. cbn [Database.initialize_times].
  destruct (Database.initialize fuel (Database.new size)) as [q []| | |] eqn:E;
    try discriminate.
  exfalso. exact (Hnever fuel q E).
Qed.

(** * The registry of background tasks *)

Section ListFacts.
Variable A : Type.
Implicit Types (l : list A) (f g : A -> bool).

Lemma filter_all_true f l :
  (forall x, In x l -> f x = true) -> filter f l = l.
Proof.
  induction l as [|a l IH]; intros H; simpl; [reflexivity|].
  rewrite (H a) by now left. f_equal. apply IH. intros x Hx. apply H. now right.
Qed.

Lemma filter_twice f g l :
  filter f (filter g l) = filter (fun x => g x && f x) l.
Proof.
  induction l as [|a l IH]; simpl; [reflexivity|].
  destruct (g a); simpl; [destruct (f a)|]; now rewrite IH.
Qed.

Lemma in_firstn_in n l x : In x (firstn n l) -> In x l.
Proof.
  intros H. rewrite <- (firstn_skipn n l). apply in_or_app. now left.
Qed.

Lemma NoDup_map_filter (B : Type) (h : A -> B) f l :
  NoDup (map h l) -> NoDup (map h (filter f l)).
Proof.
  induction l as [|a l IH]; simpl; intros H; [constructor|].
  inversion H as [|? ? Hin Hnd]; subst.
  destruct (f a); simpl; [|auto].
  constructor; [|auto]. intros Hx. apply Hin.
  apply in_map_iff in Hx as (y & E & Hy). apply filter_In in Hy as [Hy _].
  rewrite <- E. now apply in_map.
Qed.

End ListFacts.

Section KeyListFacts.

Lemma mem_true_iff ks x : mem ks x = true <-> In x ks.
Proof.
  unfold mem. rewrite existsb_exists. split.
  - intros (y & Hy & E). apply String.eqb_eq in E. now subst.
  - intros H. exists x. split; [assumption | apply String.eqb_refl].
Qed.

(** Dropping from a duplicate-free list the members of its first [k]
    elements leaves the others. *)
Lemma filter_not_firstn k : forall ks,
  NoDup ks -> filter (fun x => negb (mem (firstn k ks) x)) ks = skipn k ks.
Proof.
  induction k as [|k IH]; intros [|a ks] Hnd; simpl; try reflexivity.
  - f_equal. now apply filter_all_true.
  - inversion Hnd as [|? ? Hin Hks]; subst.
    unfold mem at 1. simpl. rewrite String.eqb_refl. simpl.
    rewrite <- (IH ks Hks). apply filter_ext_in.
    intros x Hx. unfold mem. simpl.
    destruct (String.eqb_spec x a) as [->|_]; [tauto | reflexivity].
Qed.

End KeyListFacts.

Section RegistryFacts.
Variables Task Result : Type.
Implicit Types (tasks d : State.registry Task Result) (vid : string).
Implicit Types (info : State.TaskInfo Task Result) (ks : list string).

Lemma delitem_as_filter vid d :
  OrderedDict.wf d ->
  OrderedDict.delitem vid d
  = filter (fun item => negb (String.eqb (fst item) vid)) d.
Proof.
  unfold OrderedDict.wf. induction d as [|[k v] rest IH]; intros Hnd; simpl.
  - reflexivity.
  - inversion Hnd as [|? ? Hin Hrest]; subst.
    rewrite (String.eqb_sym k vid).
    destruct (String.eqb_spec vid k) as [->|Hne]; simpl.
    + symmetry. apply filter_all_true. intros [k' v'] Hx. simpl.
      destruct (String.eqb_spec k' k) as [->|_]; [|reflexivity].
      exfalso. apply Hin. apply (in_map fst) in Hx. exact Hx.
    + f_equal. now apply IH.
Qed.

(** The loop [for vid in to_remove: del tasks[vid]] removes the entries
    whose key is in [to_remove], and no other. *)
Lemma delete_all_as_filter ks : forall d,
  OrderedDict.wf d ->
  fold_left (fun d vid => OrderedDict.delitem vid d) ks d
  = filter (fun item => negb (mem ks (fst item))) d.
Proof.
  induction ks as [|k ks IH]; intros d Hwf; simpl.
  - symmetry. now apply filter_all_true.
  - rewrite IH by now apply wf_delitem.
    rewrite delitem_as_filter by assumption. rewrite filter_twice.
    apply filter_ext. intros [k' v']. unfold mem. simpl.
    now rewrite negb_orb.
Qed.

Lemma completed_ids_NoDup tasks :
  OrderedDict.wf tasks -> NoDup (State.completed_ids tasks).
Proof. intros H. now apply NoDup_map_filter. Qed.

Lemma completed_ids_in tasks vid :
  OrderedDict.wf tasks ->
  In vid (State.completed_ids tasks) ->
  forall info, In (vid, info) tasks -> State.is_completed info = true.
Proof.
  unfold OrderedDict.wf, State.completed_ids.
  induction tasks as [|[k v] rest IH]; simpl; intros Hnd Hin info Hx; [tauto|].
  inversion Hnd as [|? ? Hk Hrest]; subst.
  destruct Hx as [[= -> ->]|Hx].
  - destruct (State.is_completed info) eqn:E; [reflexivity|].
    exfalso. apply Hk. apply in_map_iff in Hin as ([k' v'] & E' & Hy).
    apply filter_In in Hy as [Hy _]. simpl in E'. subst k'.
    apply (in_map fst) in Hy. exact Hy.
  - destruct (State.is_completed v) eqn:E.
    + simpl in Hin. destruct Hin as [<-|Hin]; [|now apply (IH Hrest Hin)].
      exfalso. apply Hk. apply (in_map fst) in Hx. exact Hx.
    + now apply (IH Hrest Hin).
Qed.

(** What [cleanup_improvement_tasks] leaves, for any [max_completed]: the
    entries whose key is not among the first [stop] completed ones, where
    [stop] is the end of the slice [completed[:-max_completed]]. *)
Lemma cleanup_as_filter tasks (max_completed : Z) :
  OrderedDict.wf tasks ->
  State.cleanup_improvement_tasks tasks max_completed
  = if Z.of_nat (length (State.completed_ids tasks)) >? max_completed
    then filter (fun item =>
                   negb (mem (py_slice_to (- max_completed)
                                (State.completed_ids tasks)) (fst item)))
                tasks
    else tasks.
Proof.
  intros Hwf. unfold State.cleanup_improvement_tasks.
  destruct (_ >? _); [|reflexivity]. now apply delete_all_as_filter.
Qed.

(** A task that is neither completed nor failed is never removed. *)
Lemma cleanup_keeps_running tasks (max_completed : Z) vid info :
  OrderedDict.wf tasks ->
  In (vid, info) tasks ->
  State.is_completed info = false ->
  In (vid, info) (State.cleanup_improvement_tasks tasks max_completed).
Proof.
  intros Hwf Hin Hrun. rewrite cleanup_as_filter by assumption.
  destruct (_ >? _); [|assumption].
  apply filter_In. split; [assumption|]. simpl.
  apply negb_true_iff. destruct (mem _ vid) eqn:E; [|reflexivity].
  apply mem_true_iff in E. unfold py_slice_to in E.
  apply in_firstn_in in E.
  rewrite (completed_ids_in tasks vid Hwf E info Hin) in Hrun. discriminate.
Qed.

(** Nothing is added, and what stays keeps its order. *)
Lemma cleanup_removes_only tasks (max_completed : Z) item :
  OrderedDict.wf tasks ->
  In item (State.cleanup_improvement_tasks tasks max_completed) ->
  In item tasks.
Proof.
  intros Hwf. rewrite cleanup_as_filter by assumption.
  destruct (_ >? _); [|auto]. intros H. now apply filter_In in H.
Qed.

Lemma completed_ids_filter_keys tasks (keep : string -> bool) :
  State.completed_ids (filter (fun item => keep (fst item)) tasks)
  = filter keep (State.completed_ids tasks).
Proof.
  unfold State.completed_ids.
  induction tasks as [|[k v] rest IH]; simpl; [reflexivity|].
  destruct (keep k) eqn:Ek; simpl;
    destruct (State.is_completed v) eqn:Ev; simpl;
    rewrite ?Ek; now rewrite IH.
Qed.

(** With a positive [max_completed], the completed and failed entries that
    stay are the [max_completed] registered last. *)
Lemma cleanup_keeps_newest tasks (max_completed : Z) :
  OrderedDict.wf tasks ->
  0 < max_completed ->
  State.completed_ids (State.cleanup_improvement_tasks tasks max_completed)
  = skipn (length (State.completed_ids tasks) - Z.to_nat max_completed)
          (State.completed_ids tasks).
Proof.
  intros Hwf Hpos. rewrite cleanup_as_filter by assumption.
  destruct (Z.gtb_spec (Z.of_nat (length (State.completed_ids tasks)))
                       max_completed) as [H|H].
  - rewrite (completed_ids_filter_keys tasks
               (fun x => negb (mem (py_slice_to (- max_completed)
                                      (State.completed_ids tasks)) x))).
    unfold py_slice_to.
    destruct (Z.ltb_spec (- max_completed) 0) as [_|?]; [|lia].
    replace (Z.to_nat (Z.max 0 (- max_completed
               + Z.of_nat (length (State.completed_ids tasks)))))
      with (length (State.completed_ids tasks) - Z.to_nat max_completed)%nat
      by lia.
    apply filter_not_firstn. now apply completed_ids_NoDup.
  - now replace (length (State.completed_ids tasks) - Z.to_nat max_completed)%nat
      with O by lia.
Qed.

(** With [max_completed = 0] the slice [completed[:-0]] is empty and nothing
    is removed. *)
Lemma cleanup_zero tasks : State.cleanup_improvement_tasks tasks 0 = tasks.
Proof.
  unfold State.cleanup_improvement_tasks.
  destruct (_ >? _); [|reflexivity].
  unfold py_slice_to. simpl Z.opp. cbv iota. cbn [Z.ltb Z.compare].
  rewrite Z.min_l by lia. reflexivity.
Qed.

End RegistryFacts.

(** C9: the code does not do this for [max_completed = 0].  The entries to
    remove are [completed[:-max_completed]], and [completed[:-0]] is the
    empty list: asked to keep none of the completed entries, the cleanup
    keeps them all.  A registry with three finished tasks and one running is
    returned as it is. *)
Theorem cleanup_keep_zero_removes_nothing :
  (forall (Task Result : Type) (tasks : State.registry Task Result),
      State.cleanup_improvement_tasks tasks 0 = tasks)
  /\
  (let tasks : State.registry nat string :=
     [("v1", State.mkInfo 1%nat "completed" (Some "ok"));
      ("v2", State.mkInfo 2%nat "error" None);
      ("v3", State.mkInfo 3%nat "running" None);
      ("v4", State.mkInfo 4%nat "completed" None)] in
   State.completed_ids tasks = ["v1"; "v2"; "v4"]
   /\ State.completed_ids (State.cleanup_improvement_tasks tasks 0)
      = ["v1"; "v2"; "v4"]
   /\ State.completed_ids (State.cleanup_improvement_tasks tasks 1) = ["v4"]).
Proof.
  split.
  - intros. apply cleanup_zero.
  - cbv zeta. repeat split.
Qed.

(** * Further properties *)

(** ** Dictionaries: lookups under other keys *)

Section OrderedDictLookups.
Import OrderedDict.
Variable V : Type.
Implicit Types (d rest : OrderedDict.t V) (key k : string) (v : V).

Lemma get_delitem_other key k d :
  k <> key -> get k (delitem key d) = get k d.
Proof.
  intros Hne. induction d as [|[k0 v0] rest IH]; simpl; [reflexivity|].
  destruct (String.eqb_spec key k0) as [->|Hk0]; simpl.
  - destruct (String.eqb_spec k k0); [congruence | reflexivity].
  - now rewrite IH.
Qed.

Lemma get_delitem_same key d : wf d -> get key (delitem key d) = None.
Proof. intros H. apply get_None_notin. now apply keys_delitem_wf. Qed.

Lemma get_replace_other key k v d :
  k <> key -> get k (replace key v d) = get k d.
Proof.
  intros Hne. induction d as [|[k0 v0] rest IH]; simpl; [reflexivity|].
  destruct (String.eqb_spec key k0) as [->|Hk0]; simpl.
  - destruct (String.eqb_spec k k0); [congruence | reflexivity].
  - now rewrite IH.
Qed.

Lemma get_snoc_other key k v d :
  k <> key -> get k (d ++ [(key, v)]) = get k d.
Proof.
  intros Hne. induction d as [|[k0 v0] rest IH]; simpl.
  - destruct (String.eqb_spec k key); [congruence | reflexivity].
  - now rewrite IH.
Qed.

Lemma get_setitem_other key k v d :
  k <> key -> get k (setitem key v d) = get k d.
Proof.
  intros Hne. unfold setitem. destruct (contains key d).
  - now apply get_replace_other.
  - now apply get_snoc_other.
Qed.

Lemma get_move_to_end key k d :
  wf d -> get k (move_to_end key d) = get k d.
Proof.
  intros Hwf. unfold move_to_end.
  destruct (get key d) as [v|] eqn:E; [|reflexivity].
  destruct (String.eqb_spec k key) as [->|Hne].
  - rewrite E, get_app_notin by now apply keys_delitem_wf.
    simpl. now rewrite String.eqb_refl.
  - rewrite get_snoc_other by assumption. now apply get_delitem_other.
Qed.

Lemma delitem_filter_keys key d :
  wf d ->
  delitem key d = filter (fun item => negb (String.eqb (fst item) key)) d.
Proof.
  unfold wf. induction d as [|[k v] rest IH]; intros Hnd; simpl.
  - reflexivity.
  - inversion Hnd as [|? ? Hin Hrest]; subst.
    rewrite (String.eqb_sym k key).
    destruct (String.eqb_spec key k) as [->|Hne]; simpl.
    + symmetry. apply filter_all_true. intros [k' v'] Hx. simpl.
      destruct (String.eqb_spec k' k) as [->|_]; [|reflexivity].
      exfalso. apply Hin. apply (in_map fst) in Hx. exact Hx.
    + f_equal. now apply IH.
Qed.

Lemma delete_keys_filter ks : forall d,
  wf d ->
  fold_left (fun d key => delitem key d) ks d
  = filter (fun item => negb (mem ks (fst item))) d.
Proof.
  induction ks as [|k ks IH]; intros d Hwf; simpl.
  - symmetry. now apply filter_all_true.
  - rewrite IH by now apply wf_delitem.
    rewrite delitem_filter_keys by assumption. rewrite filter_twice.
    apply filter_ext. intros [k' v']. unfold mem. simpl.
    now rewrite negb_orb.
Qed.

Lemma wf_filter (f : string * V -> bool) d : wf d -> wf (filter f d).
Proof. unfold wf, keys. apply NoDup_map_filter. Qed.

Lemma wf_in_unique key v1 v2 d :
  wf d -> In (key, v1) d -> In (key, v2) d -> v1 = v2.
Proof.
  unfold wf. induction d as [|[k v] rest IH]; simpl; intros Hnd H1 H2; [tauto|].
  inversion Hnd as [|? ? Hk Hrest]; subst.
  destruct H1 as [E1|H1], H2 as [E2|H2].
  - congruence.
  - injection E1 as -> ->. exfalso. apply Hk.
    apply (in_map fst) in H2. exact H2.
  - injection E2 as -> ->. exfalso. apply Hk.
    apply (in_map fst) in H1. exact H1.
  - now apply IH.
Qed.

Lemma in_get key v d : wf d -> In (key, v) d -> get key d = Some v.
Proof.
  intros Hwf Hin. destruct (get key d) as [w|] eqn:E.
  - apply get_Some_in in E. f_equal. eapply wf_in_unique; eassumption.
  - apply get_None_notin in E. exfalso. apply E.
    apply (in_map fst) in Hin. exact Hin.
Qed.

End OrderedDictLookups.

(** ** The TTL-LRU cache: the other operations *)

Section CacheMoreFacts.
Variable T : Type.
Implicit Types (c : Cache.LRUCache T) (d : OrderedDict.t (Cache.CacheEntry T)).
Implicit Types (key k : string) (v : T) (now : Q) (e : Cache.CacheEntry T).

(** An entry that is expired stays expired. *)
Lemma is_expired_mono e (t t' : Q) :
  (t <= t')%Q -> Cache.is_expired e t = true -> Cache.is_expired e t' = true.
Proof.
  intros Hle H. apply is_expired_true_iff in H. apply is_expired_true_iff.
  lra.
Qed.

Lemma evict_oldest_nonpositive m d :
  m <= 0 -> Cache.evict_oldest m d = Raises [] StopIteration.
Proof.
  intros Hm. induction d as [|[k e] rest IH]; cbn [Cache.evict_oldest];
    rewrite Z.geb_leb.
  - destruct (Z.leb_spec m (Z.of_nat (length (@nil (string * Cache.CacheEntry T)))));
      [reflexivity | simpl in *; lia].
  - destruct (Z.leb_spec m (Z.of_nat (length ((k, e) :: rest)))); [exact IH|].
    lia.
Qed.

Lemma expired_keys_incl clock d : forall i k,
  In k (Cache.expired_keys clock i d) -> In k (OrderedDict.keys d).
Proof.
  induction d as [|[k0 e0] rest IH]; simpl; intros i k H; [tauto|].
  destruct (Cache.is_expired e0 (clock i)); simpl in H.
  - destruct H as [->|H]; [now left | right; eapply IH, H].
  - right. eapply IH, H.
Qed.

Lemma expired_keys_complete clock d :
  (forall i j, (i <= j)%nat -> (clock i <= clock j)%Q) ->
  forall i k e,
    In (k, e) d -> Cache.is_expired e (clock i) = true ->
    In k (Cache.expired_keys clock i d).
Proof.
  intros Hmono. induction d as [|[k0 e0] rest IH]; simpl; intros i k e Hin X;
    [tauto|].
  destruct Hin as [[= -> ->]|Hin].
  - rewrite X. now left.
  - assert (In k (Cache.expired_keys clock (S i) rest)) as H.
    { apply (IH (S i) k e Hin). eapply is_expired_mono; [|exact X].
      apply Hmono. lia. }
    destruct (Cache.is_expired e0 (clock i)); [now right | exact H].
Qed.

Lemma expired_keys_sound clock d : forall i k,
  In k (Cache.expired_keys clock i d) ->
  exists e j, In (k, e) d /\ (i <= j < i + length d)%nat
              /\ Cache.is_expired e (clock j) = true.
Proof.
  induction d as [|[k0 e0] rest IH]; simpl; intros i k H; [tauto|].
  destruct (Cache.is_expired e0 (clock i)) eqn:X.
  - destruct H as [->|H].
    + exists e0, i. repeat split; [now left | lia | lia | exact X].
    + destruct (IH _ _ H) as (e & j & Hin & Hj & Hx).
      exists e, j. repeat split; [now right | lia | lia | exact Hx].
  - destruct (IH _ _ H) as (e & j & Hin & Hj & Hx).
    exists e, j. repeat split; [now right | lia | lia | exact Hx].
Qed.

Lemma sweep_length clock d : forall i,
  OrderedDict.wf d ->
  (length (filter (fun item => negb (mem (Cache.expired_keys clock i d)
                                         (fst item))) d)
   + length (Cache.expired_keys clock i d) = length d)%nat.
Proof.
  unfold OrderedDict.wf.
  induction d as [|[k0 e0] rest IH]; intros i Hnd; [reflexivity|].
  inversion Hnd as [|? ? Hk Hrest]; subst.
  assert (Hnot : mem (Cache.expired_keys clock (S i) rest) k0 = false).
  { destruct (mem _ k0) eqn:E; [|reflexivity].
    apply mem_true_iff, expired_keys_incl in E. tauto. }
  cbn [Cache.expired_keys]. destruct (Cache.is_expired e0 (clock i)).
  - cbn [filter fst]. unfold mem at 1. cbn [existsb].
    rewrite String.eqb_refl. cbn [orb negb].
    rewrite (filter_ext_in _
               (fun item => negb (mem (Cache.expired_keys clock (S i) rest)
                                      (fst item)))).
    + pose proof (IH (S i) Hrest) as E. cbn [length]. lia.
    + intros [k1 e1] Hin. unfold mem. cbn [existsb fst].
      destruct (String.eqb_spec k1 k0) as [->|_]; [|reflexivity].
      exfalso. apply Hk. apply (in_map fst) in Hin. exact Hin.
  - cbn [filter fst]. rewrite Hnot. cbn [negb].
    pose proof (IH (S i) Hrest) as E. cbn [length]. lia.
Qed.

End CacheMoreFacts.



(** X2: [delete(key)] returns [True] exactly when the key was present;
    afterwards the key is absent, the entry under every other key is what it
    was, the size is one less when the key was present and unchanged
    otherwise, and the hit and miss counters are untouched. *)
Theorem delete_removes_only_the_key (T : Type) (c : Cache.LRUCache T)
  (key : string) :
  OrderedDict.wf (Cache._cache c) ->
  let c' := fst (Cache.delete c key) in
  snd (Cache.delete c key) = OrderedDict.contains key (Cache._cache c)
  /\ OrderedDict.get key (Cache._cache c') = None
  /\ (forall k, k <> key ->
        OrderedDict.get k (Cache._cache c') = OrderedDict.get k (Cache._cache c))
  /\ Cache.size c' = Cache.size c - Cache.tally (snd (Cache.delete c key))
  /\ OrderedDict.wf (Cache._cache c')
  /\ Cache._hits c' = Cache._hits c /\ Cache._misses c' = Cache._misses c.
Proof.
  intros Hwf. cbv zeta. unfold Cache.delete.
  destruct (OrderedDict.contains key (Cache._cache c)) eqn:E; simpl.
  - repeat split; auto with odict.
    + now apply get_delitem_same.
    + intros k Hk. now apply get_delitem_other.
    + apply contains_true_iff, length_delitem in E. unfold Cache.size. simpl.
      lia.
  - repeat split; auto.
    + apply get_None_notin. now apply contains_false_iff.
    + lia.
Qed.

Lemma delete_removes_only_the_key_witness :
  let c := Cache.final (Cache.new 3 300 "cache")
             [Cache.OpSet "a" 1 None 0; Cache.OpSet "b" 2 None 0] in
  let c' := fst (Cache.delete c "a") in
  snd (Cache.delete c "a") = OrderedDict.contains "a" (Cache._cache c)
  /\ OrderedDict.get "a" (Cache._cache c') = None
  /\ (forall k, k <> "a" ->
        OrderedDict.get k (Cache._cache c') = OrderedDict.get k (Cache._cache c))
  /\ Cache.size c' = Cache.size c - Cache.tally (snd (Cache.delete c "a"))
  /\ OrderedDict.wf (Cache._cache c')
  /\ Cache._hits c' = Cache._hits c /\ Cache._misses c' = Cache._misses c.
Proof.
  apply (delete_removes_only_the_key Z
           (Cache.final (Cache.new 3 300 "cache")
              [Cache.OpSet "a" 1 None 0; Cache.OpSet "b" 2 None 0]) "a").
  repeat constructor; simpl; intuition discriminate.
Defined.

(** X3: [cleanup_expired], with a clock that does not run backwards during
    the sweep: every entry already expired when the sweep starts is removed,
    every entry not yet expired at a reading after the last test is kept
    unchanged, what stays keeps its order, the number returned is the number
    of entries removed, and the hit and miss counters are untouched. *)
Theorem cleanup_expired_sweeps (T : Type) (c : Cache.LRUCache T)
  (clock : nat -> Q) :
  OrderedDict.wf (Cache._cache c) ->
  (forall i j, (i <= j)%nat -> (clock i <= clock j)%Q) ->
  let c' := fst (Cache.cleanup_expired c clock) in
  let n := snd (Cache.cleanup_expired c clock) in
  (forall k e, In (k, e) (Cache._cache c) ->
               Cache.is_expired e (clock O) = true ->
               OrderedDict.get k (Cache._cache c') = None)
  /\ (forall k e, In (k, e) (Cache._cache c) ->
                  Cache.is_expired e (clock (length (Cache._cache c))) = false ->
                  OrderedDict.get k (Cache._cache c') = Some e)
  /\ (exists keep, Cache._cache c' = filter keep (Cache._cache c))
  /\ n = Cache.size c - Cache.size c'
  /\ Cache._hits c' = Cache._hits c /\ Cache._misses c' = Cache._misses c.
Proof.
  intros Hwf Hmono. cbv zeta. unfold Cache.cleanup_expired. cbn [fst snd].
  rewrite delete_keys_filter by assumption.
  set (ks := Cache.expired_keys clock 0 (Cache._cache c)).
  set (keep := fun item : string * Cache.CacheEntry T => negb (mem ks (fst item))).
  split; [|split; [|split; [|split; [|split]]]]; try reflexivity.
  - intros k e Hin X. simpl. apply get_None_notin. intros Hk.
    apply in_map_iff in Hk as ([k' e'] & E & Hx). simpl in E. subst k'.
    apply filter_In in Hx as [_ Hx]. unfold keep in Hx. simpl in Hx.
    apply negb_true_iff in Hx.
    assert (mem ks k = true) as Hy.
    { apply mem_true_iff. eapply expired_keys_complete; eassumption. }
    congruence.
  - intros k e Hin X. simpl. apply in_get; [now apply wf_filter|].
    apply filter_In. split; [assumption|]. unfold keep. simpl.
    apply negb_true_iff. destruct (mem ks k) eqn:E; [|reflexivity].
    apply mem_true_iff, expired_keys_sound in E as (e' & j & Hin' & Hj & X').
    assert (e' = e) by (eapply wf_in_unique; eassumption). subst e'.
    rewrite (is_expired_mono T e (clock j) (clock (length (Cache._cache c))))
      in X; [discriminate | apply Hmono; lia | exact X'].
  - exists keep. reflexivity.
  - unfold Cache.size. simpl.
    pose proof (sweep_length T clock (Cache._cache c) O Hwf) as E.
    fold ks in E. fold keep in E. lia.
Qed.

Lemma cleanup_expired_sweeps_witness :
  let c := Cache.final (Cache.new 3 300 "cache")
             [Cache.OpSet "a" 1 (Some 5%Q) 0; Cache.OpSet "b" 2 None 0;
              Cache.OpSet "c" 3 (Some 7%Q) 0] in
  let clock := fun i : nat => (10 + inject_Z (Z.of_nat i))%Q in
  let c' := fst (Cache.cleanup_expired c clock) in
  let n := snd (Cache.cleanup_expired c clock) in
  (forall k e, In (k, e) (Cache._cache c) ->
               Cache.is_expired e (clock O) = true ->
               OrderedDict.get k (Cache._cache c') = None)
  /\ (forall k e, In (k, e) (Cache._cache c) ->
                  Cache.is_expired e (clock (length (Cache._cache c))) = false ->
                  OrderedDict.get k (Cache._cache c') = Some e)
  /\ (exists keep, Cache._cache c' = filter keep (Cache._cache c))
  /\ n = Cache.size c - Cache.size c'
  /\ Cache._hits c' = Cache._hits c /\ Cache._misses c' = Cache._misses c.
Proof.
  intros c clock.
  apply (cleanup_expired_sweeps Z c clock).
  - repeat constructor; simpl; intuition discriminate.
  - intros i j Hij. unfold clock. apply Qplus_le_r. rewrite <- Zle_Qle. lia.
Defined.

Example cleanup_expired_example :
  let c := Cache.final (Cache.new 3 300 "cache")
             [Cache.OpSet "a" 1 (Some 5%Q) 0; Cache.OpSet "b" 2 None 0;
              Cache.OpSet "c" 3 (Some 7%Q) 0] in
  Cache.cleanup_expired c (fun i : nat => (10 + inject_Z (Z.of_nat i))%Q)
  = (Cache.with_cache c [("b", Cache.mkEntry 2 0 300 0)], 2).
Proof. reflexivity. Qed.

(** X4: a [get] changes nothing under any other key.  Under its own key, a
    hit returns the stored value and leaves the entry as it was but for a hit
    count raised by one; a miss leaves no entry. *)
Theorem get_touches_only_its_key (T : Type) (c : Cache.LRUCache T)
  (key : string) (now : Q) :
  OrderedDict.wf (Cache._cache c) ->
  let c' := fst (Cache.get c key now) in
  (forall k, k <> key ->
     OrderedDict.get k (Cache._cache c') = OrderedDict.get k (Cache._cache c))
  /\ match snd (Cache.get c key now) with
     | Some v =>
         exists e,
           OrderedDict.get key (Cache._cache c) = Some e
           /\ Cache.is_expired e now = false
           /\ v = Cache.value e
           /\ OrderedDict.get key (Cache._cache c')
              = Some (Cache.mkEntry (Cache.value e) (Cache.created_at e)
                        (Cache.ttl e) (Cache.hits e + 1))
     | None => OrderedDict.get key (Cache._cache c') = None
     end.
Proof.
  intros Hwf. cbv zeta. unfold Cache.get.
  destruct (OrderedDict.get key (Cache._cache c)) as [e|] eqn:E.
  - destruct (Cache.is_expired e now) eqn:X; cbn [fst snd]; simpl Cache._cache.
    + split.
      * intros k Hk. now apply get_delitem_other.
      * now apply get_delitem_same.
    + split.
      * intros k Hk. rewrite get_replace_other by assumption.
        now apply get_move_to_end.
      * exists e. repeat split; try assumption.
        apply get_replace_same. apply contains_true_iff.
        unfold OrderedDict.contains.
        now rewrite get_move_to_end, E by assumption.
  - cbn [fst snd]. split; [reflexivity | exact E].
Qed.

Lemma get_touches_only_its_key_witness :
  let c := Cache.final (Cache.new 3 300 "cache")
             [Cache.OpSet "a" 1 None 0; Cache.OpSet "b" 2 None 0] in
  let c' := fst (Cache.get c "a" 5) in
  (forall k, k <> "a" ->
     OrderedDict.get k (Cache._cache c') = OrderedDict.get k (Cache._cache c))
  /\ match snd (Cache.get c "a" 5) with
     | Some v =>
         exists e,
           OrderedDict.get "a" (Cache._cache c) = Some e
           /\ Cache.is_expired e 5 = false
           /\ v = Cache.value e
           /\ OrderedDict.get "a" (Cache._cache c')
              = Some (Cache.mkEntry (Cache.value e) (Cache.created_at e)
                        (Cache.ttl e) (Cache.hits e + 1))
     | None => OrderedDict.get "a" (Cache._cache c') = None
     end.
Proof.
  apply (get_touches_only_its_key Z
           (Cache.final (Cache.new 3 300 "cache")
              [Cache.OpSet "a" 1 None 0; Cache.OpSet "b" 2 None 0]) "a" 5%Q).
  repeat constructor; simpl; intuition discriminate.
Defined.

(** X5: while an entry is within its TTL, every [get] of its key is a hit
    that returns the stored value; after [n] such reads the entry's hit
    count and the cache's hit counter are both [n] higher, the miss counter
    is unchanged, and the entry's value, creation time and TTL are what they
    were. *)
Theorem repeated_hits_are_counted (T : Type) (key : string) (ts : list Q) :
  forall (c : Cache.LRUCache T) (e : Cache.CacheEntry T),
    OrderedDict.wf (Cache._cache c) ->
    OrderedDict.get key (Cache._cache c) = Some e ->
    Forall (fun t => (t - Cache.created_at e <= Cache.ttl e)%Q) ts ->
    let ops := map (Cache.OpGet key) ts in
    Forall (fun r => snd r = Cache.Hit (Cache.value e)) (Cache.run c ops)
    /\ OrderedDict.get key (Cache._cache (Cache.final c ops))
       = Some (Cache.mkEntry (Cache.value e) (Cache.created_at e)
                 (Cache.ttl e) (Cache.hits e + Z.of_nat (length ts)))
    /\ Cache._hits (Cache.final c ops) = Cache._hits c + Z.of_nat (length ts)
    /\ Cache._misses (Cache.final c ops) = Cache._misses c.
Proof.
  induction ts as [|t ts IH]; intros c e Hwf E Hts; cbv zeta.
  - simpl. rewrite final_nil. repeat split; try lia.
    + constructor.
    + rewrite E. destruct e. simpl. now rewrite Z.add_0_r.
  - inversion Hts as [|? ? Ht Hts']; subst.
    assert (X : Cache.is_expired e t = false) by now apply is_expired_false_iff.
    cbn [map]. rewrite final_cons. cbn [Cache.run Cache.step].
    rewrite (get_hit T c key t e E X). cbn [fst snd].
    set (c1 := Cache.count_hit _).
    assert (Hwf1 : OrderedDict.wf (Cache._cache c1)) by (simpl; auto with odict).
    assert (E1 : OrderedDict.get key (Cache._cache c1) = Some (Cache.touch e)).
    { simpl. apply get_replace_same, contains_true_iff.
      unfold OrderedDict.contains. now rewrite get_move_to_end, E by assumption. }
    destruct (IH c1 (Cache.touch e) Hwf1 E1 Hts') as (H1 & H2 & H3 & H4).
    cbv zeta in *. simpl Cache.value in *. simpl Cache.created_at in *.
    simpl Cache.ttl in *. simpl Cache.hits in *.
    split; [|split; [|split]].
    + constructor; [reflexivity | exact H1].
    + rewrite H2. do 2 f_equal. simpl length. lia.
    + rewrite H3. simpl. lia.
    + rewrite H4. reflexivity.
Qed.

Lemma repeated_hits_are_counted_witness :
  let c := Cache.final (Cache.new 3 300 "cache") [Cache.OpSet "a" 1 None 0] in
  let ops := map (Cache.OpGet "a") [1%Q; 2%Q; 300%Q] in
  Forall (fun r => snd r = Cache.Hit 1) (Cache.run c ops)
  /\ OrderedDict.get "a" (Cache._cache (Cache.final c ops))
     = Some (Cache.mkEntry 1 0 300 3)
  /\ Cache._hits (Cache.final c ops) = Cache._hits c + 3
  /\ Cache._misses (Cache.final c ops) = Cache._misses c.
Proof.
  apply (repeated_hits_are_counted Z "a" [1%Q; 2%Q; 300%Q]
           (Cache.final (Cache.new 3 300 "cache") [Cache.OpSet "a" 1 None 0])
           (Cache.mkEntry 1 0 300 0)).
  - repeat constructor; simpl; intuition.
  - reflexivity.
  - repeat constructor; vm_compute; discriminate.
Defined.

(** X6: a cache built with a capacity of zero or less never stores
    anything: every [set] fails on the empty dictionary ([StopIteration]
    from [next(iter(...))], which leaves the coroutine as a [RuntimeError]),
    every [get] misses, and the cache stays empty. *)
Theorem nonpositive_capacity_stores_nothing (T : Type)
  (max_size : Z) (default_ttl : Q) (name : string) (ops : list (Cache.op T)) :
  max_size <= 0 ->
  Forall (fun r =>
            Cache._cache (fst r) = []
            /\ (snd r = Cache.Miss \/ snd r = Cache.Failed StopIteration))
         (Cache.run (Cache.new max_size default_ttl name) ops).
Proof.
  intros Hm.
  assert (G : forall c : Cache.LRUCache T,
             Cache.max_size c <= 0 -> Cache._cache c = [] ->
             Forall (fun r =>
                       Cache._cache (fst r) = []
                       /\ (snd r = Cache.Miss
                           \/ snd r = Cache.Failed StopIteration))
                    (Cache.run c ops)).
  { induction ops as [|o ops IH]; intros c Hc Hd; simpl; constructor.
    - destruct o as [key now | key v ttl now]; simpl.
      + unfold Cache.get. rewrite Hd. simpl. auto.
      + unfold Cache.set. rewrite evict_oldest_nonpositive by assumption.
        simpl. auto.
    - apply IH.
      + destruct o as [key now | key v ttl now]; simpl.
        * unfold Cache.get. rewrite Hd. simpl. assumption.
        * unfold Cache.set. rewrite evict_oldest_nonpositive by assumption.
          simpl. assumption.
      + destruct o as [key now | key v ttl now]; simpl.
        * unfold Cache.get. rewrite Hd. simpl. assumption.
        * unfold Cache.set. rewrite evict_oldest_nonpositive by assumption.
          reflexivity. }
  apply G; [exact Hm | reflexivity].
Qed.

Lemma nonpositive_capacity_stores_nothing_witness :
  Forall (fun r =>
            Cache._cache (fst r) = []
            /\ (snd r = Cache.Miss \/ snd r = Cache.Failed StopIteration))
         (Cache.run (Cache.new 0 300 "cache")
            [Cache.OpSet "a" 1 None 0; Cache.OpGet "a" 0]).
Proof.
  apply (nonpositive_capacity_stores_nothing Z 0 300 "cache"). lia.
Defined.

(** ** Cache keys *)

Section MoreStringFacts.

Lemma str_app_assoc (s1 s2 s3 : string) :
  ((s1 ++ s2) ++ s3 = s1 ++ (s2 ++ s3))%string.
Proof. induction s1 as [|a s1 IH]; simpl; congruence. Qed.

Lemma str_length_app (s1 s2 : string) :
  String.length (s1 ++ s2) = (String.length s1 + String.length s2)%nat.
Proof. induction s1 as [|a s1 IH]; simpl; congruence. Qed.

(** Two splits of one string with tails of the same length are the same
    split. *)
Lemma str_app_inj_tail (s1 : string) : forall s2 t1 t2 : string,
  (s1 ++ t1 = s2 ++ t2)%string ->
  String.length t1 = String.length t2 ->
  s1 = s2 /\ t1 = t2.
Proof.
  induction s1 as [|a s1 IH]; intros [|b s2] t1 t2 E L; simpl in E.
  - auto.
  - exfalso. subst t1. simpl in L. rewrite str_length_app in L. lia.
  - exfalso. subst t2. simpl in L. rewrite str_length_app in L. lia.
  - injection E as -> E. destruct (IH _ _ _ E L) as [-> ->]. auto.
Qed.

Lemma str_leb_trans (s1 s2 s3 : string) :
  String.leb s1 s2 = true -> String.leb s2 s3 = true -> String.leb s1 s3 = true.
Proof.
  unfold String.leb. intros H12 H23.
  destruct (String.compare s1 s2) eqn:E12; [| |discriminate].
  - apply String.compare_eq_iff in E12. now subst.
  - destruct (String.compare s2 s3) eqn:E23; [| |discriminate].
    + apply String.compare_eq_iff in E23. subst. now rewrite E12.
    + apply OrderedTypeEx.String_as_OT.cmp_lt in E12, E23.
      pose proof (OrderedTypeEx.String_as_OT.lt_trans _ _ _ E12 E23) as H.
      apply OrderedTypeEx.String_as_OT.cmp_lt in H.
      unfold OrderedTypeEx.String_as_OT.cmp in H. now rewrite H.
Qed.

(** The separator inside an element reads as a boundary between two. *)
Lemma concat_split_element (sep x y : string) (l1 l2 : list string) :
  String.concat sep (l1 ++ (x ++ sep ++ y)%string :: l2)
  = String.concat sep (l1 ++ x :: y :: l2).
Proof.
  induction l1 as [|a l1 IH].
  - simpl. destruct l2; [reflexivity|]. now rewrite !str_app_assoc.
  - change ((a :: l1) ++ ?l) with (a :: (l1 ++ l)).
    cbn [String.concat]. rewrite IH.
    destruct l1; reflexivity.
Qed.

End MoreStringFacts.

Section SortedItemsFacts.
Implicit Types (x y : string * string) (l : list (string * string)).

(** Two insertions under different keys commute. *)
Lemma insert_item_comm x y l :
  fst x <> fst y ->
  insert_item x (insert_item y l) = insert_item y (insert_item x l).
Proof.
  intros Hne.
  assert (Hxy : String.leb (fst x) (fst y) = true ->
                String.leb (fst y) (fst x) = false).
  { intros H. destruct (String.leb (fst y) (fst x)) eqn:E; [|reflexivity].
    exfalso. apply Hne. now apply String.leb_antisym. }
  assert (Hyx : String.leb (fst x) (fst y) = false ->
                String.leb (fst y) (fst x) = true).
  { intros H. destruct (String.leb_total (fst x) (fst y)); congruence. }
  induction l as [|z l IH]; simpl.
  - destruct (String.leb (fst x) (fst y)) eqn:E.
    + now rewrite (Hxy eq_refl).
    + now rewrite (Hyx eq_refl).
  - destruct (String.leb (fst y) (fst z)) eqn:Eyz;
      destruct (String.leb (fst x) (fst z)) eqn:Exz; simpl.
    + destruct (String.leb (fst x) (fst y)) eqn:E.
      * rewrite (Hxy eq_refl). simpl. now rewrite Eyz.
      * rewrite (Hyx eq_refl). simpl. now rewrite Exz.
    + assert (E : String.leb (fst x) (fst y) = false).
      { destruct (String.leb (fst x) (fst y)) eqn:E; [|reflexivity].
        rewrite (str_leb_trans _ _ _ E Eyz) in Exz. discriminate. }
      rewrite E, Exz, Eyz. reflexivity.
    + assert (E : String.leb (fst y) (fst x) = false).
      { destruct (String.leb (fst y) (fst x)) eqn:E; [|reflexivity].
        rewrite (str_leb_trans _ _ _ E Exz) in Eyz. discriminate. }
      rewrite E, Exz, Eyz. reflexivity.
    + rewrite Exz, Eyz. now rewrite IH.
Qed.

(** The sorted items do not depend on the order in which the keyword
    arguments were given. *)
Lemma sorted_items_permutation l1 l2 :
  Permutation l1 l2 -> NoDup (map fst l1) -> sorted_items l1 = sorted_items l2.
Proof.
  unfold sorted_items. induction 1 as [|x l1 l2 HP IH|x y l|l1 l2 l3 H12 IH12 H23 IH23];
    intros Hnd; simpl.
  - reflexivity.
  - f_equal. apply IH. simpl in Hnd. now inversion Hnd.
  - apply insert_item_comm. simpl in Hnd. inversion Hnd as [|? ? Hin _]; subst.
    intros E. apply Hin. left. now symmetry.
  - rewrite IH12 by assumption. apply IH23.
    eapply Permutation_NoDup; [|exact Hnd]. now apply Permutation_map.
Qed.

End SortedItemsFacts.

(** X7: with a digest of fixed length, as the 32 hexadecimal digits of MD5,
    two keys made by [_make_key] are equal only when the models are equal
    and the digests of the truncated prompts are equal; on a new cache, what
    is stored for one model is not found under another. *)
Theorem make_key_separates_models (R : Type)
  (md5_hexdigest : string -> string)
  (prompt1 prompt2 model1 model2 : string) :
  (forall s, String.length (md5_hexdigest s) = 32%nat) ->
  (AIResponseCache._make_key md5_hexdigest prompt1 model1
   = AIResponseCache._make_key md5_hexdigest prompt2 model2 ->
   model1 = model2
   /\ md5_hexdigest (str_take 500 prompt1) = md5_hexdigest (str_take 500 prompt2))
  /\ (model1 <> model2 ->
      forall (max_size : Z) (result : R) (now now' : Q),
        0 < max_size ->
        exists c',
          AIResponseCache.set_vacancy_analysis md5_hexdigest
            (AIResponseCache.new max_size) prompt1 model1 result now
          = Returns c' tt
          /\ snd (AIResponseCache.get_vacancy_analysis md5_hexdigest c'
                    prompt2 model2 now') = None).
Proof.
  intros Hlen.
  assert (Hkey :
    AIResponseCache._make_key md5_hexdigest prompt1 model1
    = AIResponseCache._make_key md5_hexdigest prompt2 model2 ->
    model1 = model2
    /\ md5_hexdigest (str_take 500 prompt1)
       = md5_hexdigest (str_take 500 prompt2)).
  { unfold AIResponseCache._make_key. intros E.
    apply str_app_inj_tail in E as [-> E].
    - split; [reflexivity|]. simpl in E. now injection E.
    - simpl. now rewrite !Hlen. }
  split; [exact Hkey|].
  intros Hne max_size result now now' Hm.
  unfold AIResponseCache.set_vacancy_analysis,
    AIResponseCache.get_vacancy_analysis.
  rewrite set_returns by (simpl; lia).
  eexists. split; [reflexivity|].
  rewrite get_absent; [reflexivity|]. simpl. rewrite skipn_nil.
  unfold OrderedDict.setitem. simpl.
  destruct (String.eqb_spec
              (AIResponseCache._make_key md5_hexdigest prompt2 model2)
              (AIResponseCache._make_key md5_hexdigest prompt1 model1))
    as [E|_]; [|reflexivity].
  symmetry in E. apply Hkey in E. tauto.
Qed.

Lemma make_key_separates_models_witness :
  let digest := fun _ : string => str_repeat "0" 32 in
  (AIResponseCache._make_key digest "vacancy" "mistral"
   = AIResponseCache._make_key digest "vacancy" "gemini" ->
   "mistral" = "gemini"
   /\ digest (str_take 500 "vacancy") = digest (str_take 500 "vacancy"))
  /\ ("mistral" <> "gemini" ->
      forall (max_size : Z) (result : Z) (now now' : Q),
        0 < max_size ->
        exists c',
          AIResponseCache.set_vacancy_analysis digest
            (AIResponseCache.new max_size) "vacancy" "mistral" result now
          = Returns c' tt
          /\ snd (AIResponseCache.get_vacancy_analysis digest c'
                    "vacancy" "gemini" now') = None).
Proof.
  apply (make_key_separates_models Z (fun _ : string => str_repeat "0" 32)
           "vacancy" "vacancy" "mistral" "gemini").
  intros s. reflexivity.
Defined.

(** X8: the key of a vacancy analysis depends on the text only through its
    first 500 characters: what is stored for one text is returned, for the
    hour it lives, for every text with the same first 500 characters and the
    same model. *)
Theorem vacancy_texts_share_entry_by_prefix (R : Type)
  (md5_hexdigest : string -> string) (c : Cache.LRUCache R)
  (text1 text2 model : string) (result : R) (now now' : Q) :
  str_take 500 text1 = str_take 500 text2 ->
  0 < Cache.max_size c ->
  (now' - now <= 3600)%Q ->
  exists c',
    AIResponseCache.set_vacancy_analysis md5_hexdigest c text1 model result now
    = Returns c' tt
    /\ snd (AIResponseCache.get_vacancy_analysis md5_hexdigest c' text2 model
              now') = Some result.
Proof.
  intros Hpre Hm Ht.
  unfold AIResponseCache.set_vacancy_analysis,
    AIResponseCache.get_vacancy_analysis, AIResponseCache._make_key.
  rewrite Hpre, set_returns by assumption.
  eexists. split; [reflexivity|].
  erewrite get_hit; cycle 1.
  - simpl. apply get_setitem_same.
  - apply is_expired_false_iff. simpl. exact Ht.
  - reflexivity.
Qed.

Lemma vacancy_texts_share_entry_by_prefix_witness :
  exists c',
    AIResponseCache.set_vacancy_analysis (fun s => s) (AIResponseCache.new 200)
      (str_repeat "a" 500 ++ "Python")%string "mistral" 1 0
    = Returns c' tt
    /\ snd (AIResponseCache.get_vacancy_analysis (fun s => s) c'
              (str_repeat "a" 500 ++ "Rocq")%string "mistral" 60)
       = Some 1.
Proof.
  apply (vacancy_texts_share_entry_by_prefix Z (fun s => s)
           (AIResponseCache.new 200)).
  - vm_compute. reflexivity.
  - simpl. lia.
  - vm_compute. discriminate.
Defined.

(** X9: vacancy analyses and recruiter analyses share one key space.  The
    recruiter key of a vacancy text and a resume is the vacancy key of the
    text made of the two truncated texts joined by a bar: what is stored as
    the vacancy analysis of that text is returned as the recruiter analysis
    of the pair, and the other way round. *)
Theorem analyses_share_key_space (R : Type)
  (md5_hexdigest : string -> string) (c : Cache.LRUCache R)
  (vacancy_text resume_text model : string) (result : R) (now : Q) :
  0 < Cache.max_size c ->
  let joined := AIResponseCache.combined vacancy_text resume_text in
  (exists c',
      AIResponseCache.set_vacancy_analysis md5_hexdigest c joined model
        result now = Returns c' tt
      /\ snd (AIResponseCache.get_recruiter_analysis md5_hexdigest c'
                vacancy_text resume_text model now) = Some result)
  /\ (exists c',
         AIResponseCache.set_recruiter_analysis md5_hexdigest c vacancy_text
           resume_text model result now = Returns c' tt
         /\ snd (AIResponseCache.get_vacancy_analysis md5_hexdigest c' joined
                   model now) = Some result).
Proof.
  intros Hm. cbv zeta.
  unfold AIResponseCache.set_vacancy_analysis,
    AIResponseCache.get_vacancy_analysis,
    AIResponseCache.set_recruiter_analysis,
    AIResponseCache.get_recruiter_analysis.
  rewrite !set_returns by assumption.
  split.
  - eexists. split; [reflexivity|]. erewrite get_hit; cycle 1.
    + simpl. apply get_setitem_same.
    + apply is_expired_false_iff. simpl.
      unfold AIResponseCache.TTL_VACANCY_ANALYSIS. lra.
    + reflexivity.
  - eexists. split; [reflexivity|]. erewrite get_hit; cycle 1.
    + simpl. apply get_setitem_same.
    + apply is_expired_false_iff. simpl.
      unfold AIResponseCache.TTL_RECRUITER_ANALYSIS. lra.
    + reflexivity.
Qed.

Lemma analyses_share_key_space_witness :
  let joined := AIResponseCache.combined "Rocq engineer" "Ann" in
  (exists c',
      AIResponseCache.set_vacancy_analysis (fun s => s)
        (AIResponseCache.new 200) joined "mistral" 1 0 = Returns c' tt
      /\ snd (AIResponseCache.get_recruiter_analysis (fun s => s) c'
                "Rocq engineer" "Ann" "mistral" 0) = Some 1)
  /\ (exists c',
         AIResponseCache.set_recruiter_analysis (fun s => s)
           (AIResponseCache.new 200) "Rocq engineer" "Ann" "mistral" 1 0
         = Returns c' tt
         /\ snd (AIResponseCache.get_vacancy_analysis (fun s => s) c' joined
                   "mistral" 0) = Some 1).
Proof.
  apply (analyses_share_key_space Z (fun s => s) (AIResponseCache.new 200)
           "Rocq engineer" "Ann" "mistral" 1 0%Q).
  simpl. lia.
Defined.

(** X10: [make_cache_key] does not depend on the order in which the keyword
    arguments are given. *)
Theorem make_cache_key_ignores_keyword_order
  (md5_hexdigest : string -> string) (args : list string)
  (kwargs1 kwargs2 : list (string * string)) :
  Permutation kwargs1 kwargs2 ->
  NoDup (map fst kwargs1) ->
  make_cache_key md5_hexdigest args kwargs1
  = make_cache_key md5_hexdigest args kwargs2.
Proof.
  intros HP Hnd. unfold make_cache_key.
  now rewrite (sorted_items_permutation kwargs1 kwargs2 HP Hnd).
Qed.

Lemma make_cache_key_ignores_keyword_order_witness :
  make_cache_key (fun s => s) ["vacancy_analysis"]
    [("model", "mistral"); ("days", "7"); ("stage", "2")]
  = make_cache_key (fun s => s) ["vacancy_analysis"]
      [("stage", "2"); ("model", "mistral"); ("days", "7")].
Proof.
  apply make_cache_key_ignores_keyword_order.
  - apply Permutation_sym.
    apply (Permutation_cons_app [("model", "mistral"); ("days", "7")] []).
    rewrite app_nil_r. apply Permutation_refl.
  - repeat constructor; simpl; intuition discriminate.
Defined.

(** X11: [make_cache_key] joins the parts with a bar and writes a keyword
    argument as [k=v], without escaping: one positional argument that
    contains a bar gives the key of the two arguments on either side of it,
    and a last positional argument [k=v] gives the key of the keyword
    argument [k] with value [v]. *)
Theorem make_cache_key_collisions (md5_hexdigest : string -> string) :
  (forall (args1 args2 : list string) (x y : string)
          (kwargs : list (string * string)),
      make_cache_key md5_hexdigest
        (args1 ++ [(x ++ "|" ++ y)%string] ++ args2) kwargs
      = make_cache_key md5_hexdigest (args1 ++ [x; y] ++ args2) kwargs)
  /\ (forall (args : list string) (k v : string),
         make_cache_key md5_hexdigest (args ++ [(k ++ "=" ++ v)%string]) []
         = make_cache_key md5_hexdigest args [(k, v)]).
Proof.
  split.
  - intros args1 args2 x y kwargs. unfold make_cache_key. f_equal.
    rewrite <- !app_assoc. cbn [app]. apply concat_split_element.
  - intros args k v. unfold make_cache_key. simpl. now rewrite app_nil_r.
Qed.

Example make_cache_key_example :
  make_cache_key (fun s => s) ["a"; "b"] [("y", "2"); ("x", "1")]
  = "a|b|x=1|y=2".
Proof. reflexivity. Qed.

(** ** [cached_ai_call]: two calls in a row *)

Section CachedCallMoreFacts.
Variable R : Type.

Lemma get_max_size (c : Cache.LRUCache R) key now :
  Cache.max_size (fst (Cache.get c key now)) = Cache.max_size c.
Proof.
  unfold Cache.get.
  destruct (OrderedDict.get _ _) as [e|];
    [destruct (Cache.is_expired e now)|]; reflexivity.
Qed.

End CachedCallMoreFacts.

(** X12: a [None] from [func] is not cached, so the next call with the same
    key calls [func] again: after a call that missed and got [None], a second
    call runs [func] on the world the first call left and returns what
    [func] gives then. *)
Theorem null_result_is_retried (R W : Type)
  (g : option (Cache.LRUCache R)) (w w1 w2 : W) (r2 : option R)
  (cache_key : string) (ttl : Q) (func : W -> W * option R)
  (t1 t2 t3 t4 : Q) :
  0 < Cache.max_size (AIResponseCache.get_ai_cache g) ->
  OrderedDict.wf (Cache._cache (AIResponseCache.get_ai_cache g)) ->
  snd (Cache.get (AIResponseCache.get_ai_cache g) cache_key t1) = None ->
  func w = (w1, None) ->
  func w1 = (w2, r2) ->
  exists c1 c2,
    AIResponseCache.cached_ai_call g w cache_key ttl func t1 t2
    = Returns (c1, w1) None
    /\ AIResponseCache.cached_ai_call (Some c1) w1 cache_key ttl func t3 t4
       = Returns (c2, w2) r2.
Proof.
  intros Hm Hwf Hmiss Hf1 Hf2.
  destruct (cached_ai_call_none R W g w w1 cache_key ttl func t1 t2
              Hwf Hmiss Hf1) as [Hcall Habs].
  cbv zeta in Hcall, Habs.
  set (c1 := fst (Cache.get (AIResponseCache.get_ai_cache g) cache_key t1)) in *.
  assert (Hm1 : 0 < Cache.max_size c1)
    by (unfold c1; now rewrite get_max_size).
  exists c1.
  unfold AIResponseCache.cached_ai_call at 2.
  cbn [AIResponseCache.get_ai_cache].
  rewrite (get_absent R c1 cache_key t3 Habs), Hf2.
  destruct r2 as [v|].
  - rewrite set_returns by (simpl; exact Hm1).
    eexists. split; [exact Hcall | reflexivity].
  - eexists. split; [exact Hcall | reflexivity].
Qed.

Lemma null_result_is_retried_witness :
  let func := fun calls : nat =>
                (S calls, if Nat.eqb calls 0 then None else Some 7) in
  exists c1 c2,
    AIResponseCache.cached_ai_call None O "k" 60 func 0 1
    = Returns (c1, 1%nat) None
    /\ AIResponseCache.cached_ai_call (Some c1) 1%nat "k" 60 func 2 3
       = Returns (c2, 2%nat) (Some 7).
Proof.
  intros func.
  apply (null_result_is_retried Z nat None O 1%nat 2%nat (Some 7) "k" 60%Q
           func 0%Q 1%Q 2%Q 3%Q).
  - simpl. lia.
  - simpl. constructor.
  - reflexivity.
  - reflexivity.
  - reflexivity.
Defined.

(** X13: a response that [func] computes is served from the cache
    afterwards: after a call that missed and got a response, with a TTL
    other than zero, every call with the same key made within TTL seconds of
    the store returns that response and does not call its function (the
    collaborator's world is unchanged). *)
Theorem computed_result_is_memoized (R W : Type)
  (g : option (Cache.LRUCache R)) (w w1 : W) (v : R)
  (cache_key : string) (ttl : Q) (func : W -> W * option R)
  (t1 t2 t3 : Q) :
  0 < Cache.max_size (AIResponseCache.get_ai_cache g) ->
  snd (Cache.get (AIResponseCache.get_ai_cache g) cache_key t1) = None ->
  func w = (w1, Some v) ->
  ~ (ttl == 0)%Q ->
  (t3 - t2 <= ttl)%Q ->
  exists c1,
    AIResponseCache.cached_ai_call g w cache_key ttl func t1 t2
    = Returns (c1, w1) (Some v)
    /\ forall (func' : W -> W * option R) (ttl' t4 : Q),
        exists c2,
          AIResponseCache.cached_ai_call (Some c1) w1 cache_key ttl' func' t3 t4
          = Returns (c2, w1) (Some v).
Proof.
  intros Hm Hmiss Hf Hnz Ht.
  destruct (cached_ai_call_some R W g w w1 v cache_key ttl func t1 t2
              Hm Hmiss Hf) as (c1 & Hcall & Hget).
  assert (Hz : Qeq_bool ttl 0 = false).
  { destruct (Qeq_bool ttl 0) eqn:E; [|reflexivity].
    apply Qeq_bool_iff in E. contradiction. }
  rewrite Hz in Hget.
  exists c1. split; [exact Hcall|].
  intros func' ttl' t4. unfold AIResponseCache.cached_ai_call.
  cbn [AIResponseCache.get_ai_cache].
  rewrite (get_hit R c1 cache_key t3 _ Hget)
    by (apply is_expired_false_iff; exact Ht).
  eexists. reflexivity.
Qed.

Lemma computed_result_is_memoized_witness :
  let func := fun calls : nat => (S calls, Some 7) in
  exists c1,
    AIResponseCache.cached_ai_call None O "k" 60 func 0 1
    = Returns (c1, 1%nat) (Some 7)
    /\ forall (func' : nat -> nat * option Z) (ttl' t4 : Q),
        exists c2,
          AIResponseCache.cached_ai_call (Some c1) 1%nat "k" ttl' func' 61 t4
          = Returns (c2, 1%nat) (Some 7).
Proof.
  intros func.
  apply (computed_result_is_memoized Z nat None O 1%nat 7 "k" 60%Q func
           0%Q 1%Q 61%Q).
  - simpl. lia.
  - reflexivity.
  - reflexivity.
  - vm_compute. discriminate.
  - vm_compute. discriminate.
Defined.

(** ** The connection pool: borrowing from a pool that was never initialized *)


(** ** The state object: monitoring, statistics, settings, clients, tasks *)

Section MonitoringFacts.
Variable Task : Type.
Implicit Types (m : State.Monitoring Task) (t : Task).

Lemma monitoring_step_invariant m (o : State.monitoring_op Task) :
  (State._monitoring_active m = true <-> State._monitoring_task m <> None) ->
  (State._monitoring_active (State.monitoring_step m o) = true
   <-> State._monitoring_task (State.monitoring_step m o) <> None).
Proof.
  intros H. destruct o as [t|]; simpl.
  - unfold State.start_monitoring.
    destruct (State._monitoring_active m) eqn:E; simpl.
    + now rewrite E.
    + split; [discriminate | reflexivity].
  - split; [discriminate | congruence].
Qed.

Lemma monitoring_run_invariant (ops : list (State.monitoring_op Task)) : forall m,
  (State._monitoring_active m = true <-> State._monitoring_task m <> None) ->
  (State._monitoring_active (State.monitoring_run m ops) = true
   <-> State._monitoring_task (State.monitoring_run m ops) <> None).
Proof.
  unfold State.monitoring_run.
  induction ops as [|o ops IH]; intros m H; simpl; [exact H|].
  apply IH. now apply monitoring_step_invariant.
Qed.

End MonitoringFacts.

(** X15: after any sequence of [start_monitoring] and [stop_monitoring]
    calls, monitoring is active exactly when a task is recorded.  While it
    is active a further start is refused and leaves the recorded task in
    place, and a stop hands that task back; while it is not active a stop
    hands back nothing, and a start is accepted and records its task. *)
Theorem monitoring_records_one_task (Task : Type)
  (ops : list (State.monitoring_op Task)) :
  let m := State.monitoring_run State.monitoring_init ops in
  (State._monitoring_active m = true <-> State._monitoring_task m <> None)
  /\ (State._monitoring_active m = true ->
      exists t0,
        State._monitoring_task m = Some t0
        /\ (forall t, State.start_monitoring m t = (m, false))
        /\ State.stop_monitoring m = (State.monitoring_init, Some t0))
  /\ (State._monitoring_active m = false ->
      State.stop_monitoring m = (State.monitoring_init, None)
      /\ forall t,
          State.start_monitoring m t = (State.mkMonitoring true (Some t), true)
          /\ State.stop_monitoring (State.mkMonitoring true (Some t))
             = (State.monitoring_init, Some t)).
Proof.
  cbv zeta.
  assert (Hinv := monitoring_run_invariant Task ops State.monitoring_init).
  set (m := State.monitoring_run State.monitoring_init ops) in *.
  assert (H : State._monitoring_active m = true
              <-> State._monitoring_task m <> None).
  { apply Hinv. simpl. split; [discriminate | congruence]. }
  split; [exact H|]. split.
  - intros Ha. destruct (State._monitoring_task m) as [t0|] eqn:E.
    + exists t0. split; [reflexivity|]. split.
      * intros t. unfold State.start_monitoring. now rewrite Ha.
      * unfold State.stop_monitoring. now rewrite E.
    + exfalso. apply H in Ha. congruence.
  - intros Ha. split.
    + unfold State.stop_monitoring.
      destruct (State._monitoring_task m) as [t0|] eqn:E; [|reflexivity].
      assert (State._monitoring_active m = true) by (apply H; congruence).
      congruence.
    + intros t. unfold State.start_monitoring. rewrite Ha. split; reflexivity.
Qed.

Section StatsFacts.
Implicit Types (s d : State.Stats) (deltas : list State.Stats).

Lemma increment_all_sum deltas : forall s,
  State.increment_all s deltas
  = State.mkStats
      (State.found s + fold_right Z.add 0 (map State.found deltas))
      (State.processed s + fold_right Z.add 0 (map State.processed deltas))
      (State.rejected s + fold_right Z.add 0 (map State.rejected deltas))
      (State.suitable s + fold_right Z.add 0 (map State.suitable deltas)).
Proof.
  unfold State.increment_all.
  induction deltas as [|d deltas IH]; intros s; simpl.
  - destruct s; simpl. now rewrite !Z.add_0_r.
  - rewrite IH. unfold State.increment_stats. simpl. f_equal; lia.
Qed.

Lemma sum_permutation (l1 l2 : list Z) :
  Permutation l1 l2 -> fold_right Z.add 0 l1 = fold_right Z.add 0 l2.
Proof. induction 1; simpl; lia. Qed.

End StatsFacts.

(** X16: increments add up.  After any list of [increment_stats] calls each
    counter is its earlier value plus the sum of the increments given for
    it; the order of the calls does not matter; after [reset_stats] the
    dictionary of [get_stats_dict] shows the four sums. *)
Theorem increments_add_up (s : State.Stats) (deltas : list State.Stats) :
  State.increment_all s deltas
  = State.mkStats
      (State.found s + fold_right Z.add 0 (map State.found deltas))
      (State.processed s + fold_right Z.add 0 (map State.processed deltas))
      (State.rejected s + fold_right Z.add 0 (map State.rejected deltas))
      (State.suitable s + fold_right Z.add 0 (map State.suitable deltas))
  /\ (forall deltas',
         Permutation deltas deltas' ->
         State.increment_all s deltas' = State.increment_all s deltas)
  /\ State.get_stats_dict (State.increment_all (State.reset_stats s) deltas)
     = [ ("found", fold_right Z.add 0 (map State.found deltas));
         ("processed", fold_right Z.add 0 (map State.processed deltas));
         ("rejected", fold_right Z.add 0 (map State.rejected deltas));
         ("suitable", fold_right Z.add 0 (map State.suitable deltas)) ].
Proof.
  split; [apply increment_all_sum|]. split.
  - intros deltas' HP. rewrite !increment_all_sum.
    f_equal; f_equal; symmetry; apply sum_permutation;
      now apply Permutation_map.
  - rewrite increment_all_sum. reflexivity.
Qed.

Section SettingsFacts.
Variable Setting : Type.
Implicit Types (settings updates : OrderedDict.t Setting) (key : string).

Lemma get_update_settings updates : forall settings key,
  OrderedDict.wf updates ->
  OrderedDict.get key (State.update_settings settings updates)
  = match OrderedDict.get key updates with
    | Some v => Some v
    | None => OrderedDict.get key settings
    end.
Proof.
  unfold State.update_settings.
  induction updates as [|[k v] updates IH]; intros settings key Hwf; simpl;
    [reflexivity|].
  rewrite IH by (eapply wf_tail, Hwf).
  unfold OrderedDict.wf in Hwf. simpl in Hwf.
  inversion Hwf as [|? ? Hk _]; subst.
  destruct (String.eqb_spec key k) as [->|Hne].
  - replace (OrderedDict.get k updates) with (@None Setting)
      by (symmetry; now apply get_None_notin).
    apply get_setitem_same.
  - destruct (OrderedDict.get key updates); [reflexivity|].
    now apply get_setitem_other.
Qed.

Lemma wf_update_settings updates : forall settings,
  OrderedDict.wf settings ->
  OrderedDict.wf (State.update_settings settings updates).
Proof.
  unfold State.update_settings.
  induction updates as [|[k v] updates IH]; intros settings H; simpl;
    auto with odict.
Qed.

Lemma keys_update_settings updates : forall settings k,
  In k (OrderedDict.keys settings) ->
  In k (OrderedDict.keys (State.update_settings settings updates)).
Proof.
  unfold State.update_settings.
  induction updates as [|[k0 v] updates IH]; intros settings k H; simpl;
    [exact H|].
  apply IH. rewrite keys_setitem.
  destruct (OrderedDict.contains k0 settings); [exact H|].
  apply in_or_app. now left.
Qed.

End SettingsFacts.

(** X17: [update_settings] merges: afterwards [get_setting] gives, for a key
    of the update, the value the update has for it, and for any other key
    what it gave before (the default when the key was never set); no key is
    lost and the keys stay distinct. *)
Theorem update_settings_merges (Setting : Type)
  (settings updates : OrderedDict.t Setting) (key : string)
  (default : Setting) :
  OrderedDict.wf settings ->
  OrderedDict.wf updates ->
  State.get_setting (State.update_settings settings updates) key default
  = match OrderedDict.get key updates with
    | Some v => v
    | None => State.get_setting settings key default
    end
  /\ OrderedDict.wf (State.update_settings settings updates)
  /\ forall k, In k (OrderedDict.keys settings) ->
               In k (OrderedDict.keys (State.update_settings settings updates)).
Proof.
  intros Hs Hu. split; [|split].
  - unfold State.get_setting. rewrite get_update_settings by assumption.
    now destruct (OrderedDict.get key updates).
  - now apply wf_update_settings.
  - intros k. apply keys_update_settings.
Qed.

Lemma update_settings_merges_witness :
  let settings := [("model_type", "mistral"); ("days_back", "7")] in
  let updates := [("days_back", "3"); ("custom_prompt", "remote only")] in
  State.get_setting (State.update_settings settings updates) "days_back" ""
  = match OrderedDict.get "days_back" updates with
    | Some v => v
    | None => State.get_setting settings "days_back" ""
    end
  /\ OrderedDict.wf (State.update_settings settings updates)
  /\ forall k, In k (OrderedDict.keys settings) ->
               In k (OrderedDict.keys (State.update_settings settings updates)).
Proof.
  apply (update_settings_merges string
           [("model_type", "mistral"); ("days_back", "7")]
           [("days_back", "3"); ("custom_prompt", "remote only")]
           "days_back" "").
  - repeat constructor; simpl; intuition discriminate.
  - repeat constructor; simpl; intuition discriminate.
Defined.

Section ClientsFacts.
Variable Client : Type.
Variable Client_eq_dec : forall x y : Client, {x = y} + {x <> y}.
Implicit Types (l clients dead : list Client) (c : Client).

Lemma list_remove_in c x l :
  In x (State.list_remove Client_eq_dec c l) -> In x l.
Proof.
  induction l as [|y l IH]; simpl; [tauto|].
  destruct (Client_eq_dec c y); simpl; tauto.
Qed.

Lemma list_remove_NoDup c l :
  NoDup l -> NoDup (State.list_remove Client_eq_dec c l).
Proof.
  induction l as [|y l IH]; simpl; intros H; [constructor|].
  inversion H as [|? ? Hy Hl]; subst.
  destruct (Client_eq_dec c y); [assumption|].
  constructor; [|auto]. intros Hin. apply Hy. eapply list_remove_in, Hin.
Qed.

(** Without duplicates, removing the first occurrence removes the client. *)
Lemma list_remove_filter c l :
  NoDup l ->
  State.list_remove Client_eq_dec c l
  = filter (fun x => if Client_eq_dec c x then false else true) l.
Proof.
  induction l as [|y l IH]; simpl; intros H; [reflexivity|].
  inversion H as [|? ? Hy Hl]; subst.
  destruct (Client_eq_dec c y) as [->|Hne].
  - symmetry. apply filter_all_true. intros x Hx.
    destruct (Client_eq_dec y x); [congruence | reflexivity].
  - f_equal. now apply IH.
Qed.

Lemma remove_ws_client_filter clients c :
  NoDup clients ->
  State.remove_ws_client Client_eq_dec clients c
  = filter (fun x => if Client_eq_dec c x then false else true) clients.
Proof.
  intros H. unfold State.remove_ws_client.
  destruct (in_dec Client_eq_dec c clients) as [Hin|Hout].
  - now apply list_remove_filter.
  - symmetry. apply filter_all_true. intros x Hx.
    destruct (Client_eq_dec c x); [congruence | reflexivity].
Qed.

Lemma add_ws_client_NoDup clients c :
  NoDup clients -> NoDup (State.add_ws_client Client_eq_dec clients c).
Proof.
  intros H. unfold State.add_ws_client.
  destruct (in_dec Client_eq_dec c clients) as [Hin|Hout]; [assumption|].
  apply NoDup_app; [assumption | repeat constructor; simpl; tauto |].
  intros x Hx [<-|[]]. contradiction.
Qed.

Lemma remove_ws_client_NoDup clients c :
  NoDup clients -> NoDup (State.remove_ws_client Client_eq_dec clients c).
Proof.
  intros H. unfold State.remove_ws_client.
  destruct (in_dec Client_eq_dec c clients); [|assumption].
  now apply list_remove_NoDup.
Qed.

Lemma cleanup_ws_clients_fold dead : forall clients,
  State.cleanup_ws_clients Client_eq_dec clients dead
  = fold_left (State.remove_ws_client Client_eq_dec) dead clients.
Proof. reflexivity. Qed.

Lemma cleanup_ws_clients_NoDup dead : forall clients,
  NoDup clients -> NoDup (State.cleanup_ws_clients Client_eq_dec clients dead).
Proof.
  induction dead as [|c dead IH]; intros clients H; [exact H|].
  rewrite cleanup_ws_clients_fold. simpl. rewrite <- cleanup_ws_clients_fold.
  apply IH. now apply remove_ws_client_NoDup.
Qed.

Lemma cleanup_ws_clients_filter dead : forall clients,
  NoDup clients ->
  State.cleanup_ws_clients Client_eq_dec clients dead
  = filter (fun x => if in_dec Client_eq_dec x dead then false else true)
           clients.
Proof.
  induction dead as [|c dead IH]; intros clients H.
  - symmetry. now apply filter_all_true.
  - rewrite cleanup_ws_clients_fold. simpl. rewrite <- cleanup_ws_clients_fold.
    rewrite IH by now apply remove_ws_client_NoDup.
    rewrite remove_ws_client_filter by assumption.
    rewrite filter_twice. apply filter_ext. intros x.
    destruct (in_dec Client_eq_dec x (c :: dead)) as [Hc|Hc];
      destruct (Client_eq_dec c x) as [E|Hne];
      destruct (in_dec Client_eq_dec x dead) as [Hd|Hd];
      cbn [andb]; try reflexivity; exfalso; simpl in Hc; tauto.
Qed.

End ClientsFacts.


(** X19: on a list without duplicates, [cleanup_ws_clients] removes the
    dead clients and nothing else: the clients that stay are those not
    named dead, in their old order, whether or not the dead list names a
    client twice or names clients that are not connected. *)
Theorem cleanup_ws_clients_removes_the_dead (Client : Type)
  (Client_eq_dec : forall x y : Client, {x = y} + {x <> y})
  (clients dead_clients : list Client) :
  NoDup clients ->
  State.cleanup_ws_clients Client_eq_dec clients dead_clients
  = filter (fun x => if in_dec Client_eq_dec x dead_clients
                     then false else true) clients
  /\ forall client,
      In client (State.cleanup_ws_clients Client_eq_dec clients dead_clients)
      <-> In client clients /\ ~ In client dead_clients.
Proof.
  intros H. rewrite cleanup_ws_clients_filter by assumption.
  split; [reflexivity|]. intros client. rewrite filter_In.
  destruct (in_dec Client_eq_dec client dead_clients); intuition discriminate.
Qed.

Lemma cleanup_ws_clients_removes_the_dead_witness :
  State.cleanup_ws_clients Nat.eq_dec [1; 2; 3; 4]%nat [3; 7; 1; 3]%nat
  = filter (fun x => if in_dec Nat.eq_dec x [3; 7; 1; 3]%nat
                     then false else true) [1; 2; 3; 4]%nat
  /\ forall client,
      In client (State.cleanup_ws_clients Nat.eq_dec [1; 2; 3; 4]%nat
                   [3; 7; 1; 3]%nat)
      <-> In client [1; 2; 3; 4]%nat /\ ~ In client [3; 7; 1; 3]%nat.
Proof.
  apply (cleanup_ws_clients_removes_the_dead nat Nat.eq_dec).
  repeat constructor; simpl; intuition discriminate.
Defined.



(** X21: the life of a registered task.  After [add_improvement_task] the
    entry has the task handle, status [running] and no result.
    [update_improvement_task] changes the status, records a result that is
    not [None], and keeps the earlier result when given [None]; it never
    changes the handle, never adds or moves an entry, and does nothing for
    an identifier that is not registered. *)
Theorem improvement_task_lifecycle (Task Result : Type)
  (tasks : State.registry Task Result) (vid : string) (t : Task)
  (status1 status2 : string) (r : Result) :
  let registered := State.add_improvement_task tasks vid t in
  let finished :=
    State.update_improvement_task registered vid status1 (Some r) in
  let updated := State.update_improvement_task finished vid status2 None in
  State.get_improvement_task registered vid
  = Some (State.mkInfo t "running" None)
  /\ State.get_improvement_task finished vid
     = Some (State.mkInfo t status1 (Some r))
  /\ State.get_improvement_task updated vid
     = Some (State.mkInfo t status2 (Some r))
  /\ (forall any_id any_status any_result,
         OrderedDict.keys
           (State.update_improvement_task tasks any_id any_status any_result)
         = OrderedDict.keys tasks)
  /\ (forall any_status any_result,
         State.get_improvement_task tasks vid = None ->
         State.update_improvement_task tasks vid any_status any_result = tasks).
Proof.
  cbv zeta. unfold State.get_improvement_task.
  assert (H1 : OrderedDict.get vid (State.add_improvement_task tasks vid t)
               = Some (State.mkInfo t "running" None))
    by apply get_setitem_same.
  assert (Hin : forall (d : State.registry Task Result) info,
             OrderedDict.get vid d = Some info ->
             In vid (OrderedDict.keys d)).
  { intros d info E. apply contains_true_iff. unfold OrderedDict.contains.
    now rewrite E. }
  assert (H2 : OrderedDict.get vid
                 (State.update_improvement_task
                    (State.add_improvement_task tasks vid t) vid status1
                    (Some r))
               = Some (State.mkInfo t status1 (Some r))).
  { unfold State.update_improvement_task at 1. rewrite H1. simpl.
    apply get_replace_same. eapply Hin, H1. }
  split; [exact H1|]. split; [exact H2|]. split; [|split].
  - unfold State.update_improvement_task at 1. rewrite H2. simpl.
    apply get_replace_same. eapply Hin, H2.
  - intros any_id any_status any_result.
    unfold State.update_improvement_task.
    destruct (OrderedDict.get any_id tasks); [|reflexivity].
    apply keys_replace.
  - intros any_status any_result E.
    unfold State.update_improvement_task. now rewrite E.
Qed.
